(** * The MWCP dispatcher: file objects, identification chain, dispatch loop

    A shallow embedding of [mwcp/resources/dispatcher.py].

    Python objects are shared and mutated in place, so file objects live in a
    store ([objects]) and are referred to by their position in it; the
    attributes of the [Dispatcher] instance, the reporter's [outputfiles] and
    a log of the calls the code makes are the rest of the state.

    Parser classes are the open part of the program.  A class is given by
    its [__name__], its [DESCRIPTION], its [identify] predicate, which may
    rename or describe the file object, answers or raises, and what its [run]
    does through what it is handed: assign the file object's name or
    description, create file objects and queue them, call [output()] on its
    file object, write to the knowledge base, and then return, raise
    [UnableToParse] or raise another [Exception].  A class queues only file
    objects it creates.  Signals outside the [Exception] hierarchy
    (interpreter exit, keyboard interrupt) are not among the endings.

    Of [FileObject], the attributes computed by external helpers ([pe],
    [md5], [file_path], [resources]) are left out, and the file name is the
    one [__init__] settles on.

    [dispatch] may run for ever, when classes keep extracting files: it is
    run for a given number of turns of its [while] loop, and the result says
    whether it returned, was left by an exception or is still running. *)

From Stdlib Require Import String List Bool Lia.
From stdpp Require Import base option list strings gmap.

Set Default Proof Using "Type".

(** ** References, file objects *)

(** A reference to a [FileObject]: its index in the object store. *)
Abbreviation ref := nat.

Record FileObject := mkFileObject {
  file_data : list Byte.byte;
  file_name : string;
  description : option string;
  output_file : bool;
  _outputted_file : bool;
  parent : option ref;
  parser : option string   (* the parser class, by its [__name__] *)
}.

(** [FileObject.__init__], after the name has been resolved (the PE helpers
    that derive a name are external): a fresh object has no parent, no parser
    and is not yet outputted; [assert self.file_name] fails on an empty name. *)
Definition FileObject_init (data : list Byte.byte) (name : string)
    (desc : option string) (out : bool) : option FileObject :=
  if String.eqb name EmptyString then None
  else Some {| file_data := data; file_name := name; description := desc;
               output_file := out; _outputted_file := false;
               parent := None; parser := None |}.

(** Python truthiness of an optional string: [None] and the empty string are
    both false. *)
Definition truthy (s : option string) : bool :=
  match s with
  | Some s => negb (String.eqb s EmptyString)
  | None => false
  end.

(** [s or ''] *)
Definition or_empty (s : option string) : string :=
  match s with
  | Some s => s
  | None => EmptyString
  end.

#[global] Instance FileObject_inhabited : Inhabited FileObject :=
  populate {| file_data := []; file_name := EmptyString; description := None;
              output_file := false; _outputted_file := false;
              parent := None; parser := None |}.

Definition set_file_name (n : string) (o : FileObject) : FileObject :=
  {| file_data := file_data o; file_name := n; description := description o;
     output_file := output_file o; _outputted_file := _outputted_file o;
     parent := parent o; parser := parser o |}.

Definition set_description (d : option string) (o : FileObject) : FileObject :=
  {| file_data := file_data o; file_name := file_name o; description := d;
     output_file := output_file o; _outputted_file := _outputted_file o;
     parent := parent o; parser := parser o |}.

Definition set_outputted_file (b : bool) (o : FileObject) : FileObject :=
  {| file_data := file_data o; file_name := file_name o;
     description := description o; output_file := output_file o;
     _outputted_file := b; parent := parent o; parser := parser o |}.

Definition set_parent (p : option ref) (o : FileObject) : FileObject :=
  {| file_data := file_data o; file_name := file_name o;
     description := description o; output_file := output_file o;
     _outputted_file := _outputted_file o; parent := p; parser := parser o |}.

Definition set_parser (c : option string) (o : FileObject) : FileObject :=
  {| file_data := file_data o; file_name := file_name o;
     description := description o; output_file := output_file o;
     _outputted_file := _outputted_file o; parent := parent o; parser := c |}.

(** ** Parser classes *)

(** What [identify] is allowed to change on the file object it is shown
    ("to provide a new file_name or description"). *)
Inductive mutation :=
  | SetFileName (n : string)
  | SetDescription (d : option string).

Definition apply_mutation (m : mutation) (o : FileObject) : FileObject :=
  match m with
  | SetFileName n => set_file_name n o
  | SetDescription d => set_description d o
  end.

(** What a parser's [run] does, through the interfaces it is handed. *)
Inductive action :=
  | Mutate (m : mutation)                 (* self.file_object.<attr> = ... *)
  | Extract (data : list Byte.byte) (name : string)
            (desc : option string) (out : bool)
      (* self.dispatcher.add_to_queue(FileObject(data, ...)) *)
  | Output                                (* self.file_object.output() *)
  | Learn (key value : string).           (* dispatcher.knowledge_base[key] = value *)

(** How the construction-and-run of a parser ends. *)
Inductive ending :=
  | Returns
  | RaisesUnableToParse
  | RaisesException.     (* any other [Exception] *)

Record ParserClass := mkParserClass {
  class_name : string;                      (* __name__ *)
  DESCRIPTION : option string;
  (* [None]: the predicate raises *)
  identify : FileObject -> option (list mutation * bool);
  run : FileObject -> gmap string string -> list action * ending
}.

(** [ComponentParser]: no [DESCRIPTION], [identify] raises
    [NotImplementedError], [run] is [pass]. *)
Definition ComponentParser : ParserClass :=
  {| class_name := "ComponentParser";
     DESCRIPTION := None;
     identify := fun _ => None;
     run := fun _ _ => ([], Returns) |}.

Definition UnidentifiedFile : ParserClass :=
  {| class_name := "UnidentifiedFile";
     DESCRIPTION := Some "Unidentified file"%string;
     identify := fun _ => Some ([], true);
     run := fun _ _ => ([], Returns) |}.

(** ** The log of calls *)

(** The messages handed to [reporter.debug], by their format string. *)
Inductive message :=
  | ParsingStarted
  | Residual (current_name file_name : string)
  | IdentifiedAs (file_name : string) (label : option string)
  | NotIdentified (file_name : string)
  | MissIdentified (file_name : string) (label : option string)
  | ParserFailed (class_name : string).

Inductive event :=
  | Queued (fo : ref)                      (* _fifo_buffer.appendleft(fo) *)
  | Popped (fo : ref)                      (* _fifo_buffer.pop() gave fo *)
  | Asked (cls : string) (fo : ref) (answer : bool)
                                           (* cls.identify(fo) gave answer *)
  | Ran (cls : string) (fo : ref)          (* parser.run() entered *)
  | Ended (cls : string) (fo : ref) (e : ending)
                                           (* the try block was left *)
  | OutputCalled (fo : ref)                (* fo.output() called *)
  | OutputFile (data : list Byte.byte) (filename description : string)
                                           (* reporter.output_file(...) *)
  | Debug (m : message).                   (* reporter.debug(...) *)

(** ** State *)

(** The constructor arguments of [Dispatcher], fixed during a run. *)
Record Dispatcher := mkDispatcher {
  parsers : list ParserClass;
  greedy : bool;
  default : option ParserClass
}.

(** Everything that changes: the object store, the reporter's output names,
    the attributes [Dispatcher.__init__] initialises, and the log. *)
Record State := mkState {
  objects : list FileObject;
  outputfiles : list string;
  _fifo_buffer : list ref;                 (* deque; head of the list = left end *)
  _current_file_object : option ref;
  _current_parser_class : option string;
  knowledge_base : gmap string string;
  trace : list event
}.

Definition with_objects (f : list FileObject -> list FileObject) (st : State) : State :=
  {| objects := f (objects st); outputfiles := outputfiles st;
     _fifo_buffer := _fifo_buffer st;
     _current_file_object := _current_file_object st;
     _current_parser_class := _current_parser_class st;
     knowledge_base := knowledge_base st; trace := trace st |}.

Definition with_outputfiles (names : list string) (st : State) : State :=
  {| objects := objects st; outputfiles := names;
     _fifo_buffer := _fifo_buffer st;
     _current_file_object := _current_file_object st;
     _current_parser_class := _current_parser_class st;
     knowledge_base := knowledge_base st; trace := trace st |}.

Definition with_fifo_buffer (q : list ref) (st : State) : State :=
  {| objects := objects st; outputfiles := outputfiles st;
     _fifo_buffer := q;
     _current_file_object := _current_file_object st;
     _current_parser_class := _current_parser_class st;
     knowledge_base := knowledge_base st; trace := trace st |}.

Definition with_current (fo : option ref) (cls : option string) (st : State) : State :=
  {| objects := objects st; outputfiles := outputfiles st;
     _fifo_buffer := _fifo_buffer st;
     _current_file_object := fo;
     _current_parser_class := cls;
     knowledge_base := knowledge_base st; trace := trace st |}.

Definition with_knowledge_base (kb : gmap string string) (st : State) : State :=
  {| objects := objects st; outputfiles := outputfiles st;
     _fifo_buffer := _fifo_buffer st;
     _current_file_object := _current_file_object st;
     _current_parser_class := _current_parser_class st;
     knowledge_base := kb; trace := trace st |}.

Definition log (e : event) (st : State) : State :=
  {| objects := objects st; outputfiles := outputfiles st;
     _fifo_buffer := _fifo_buffer st;
     _current_file_object := _current_file_object st;
     _current_parser_class := _current_parser_class st;
     knowledge_base := knowledge_base st; trace := trace st ++ [e] |}.

(** Reading and writing the object a reference denotes.  A reference handed
    around by the code always denotes an object of the store; the total
    lookup only makes the functions below total. *)
Definition deref (fo : ref) (st : State) : FileObject := objects st !!! fo.

Definition update (fo : ref) (f : FileObject -> FileObject) (st : State) : State :=
  with_objects (alter f fo) st.

(** A new object is placed at the end of the store. *)
Definition allocate (o : FileObject) (st : State) : ref * State :=
  (length (objects st), with_objects (fun os => os ++ [o]) st).

(** [Dispatcher.__init__] with a reporter that has output nothing yet. *)
Definition Dispatcher_init : State :=
  {| objects := []; outputfiles := []; _fifo_buffer := [];
     _current_file_object := None; _current_parser_class := None;
     knowledge_base := ∅; trace := [] |}.

(** ** The reporter *)

(** The reporter is a collaborator of the dispatcher: all that matters here of
    its [output_file] is what it does to [outputfiles]. *)
Class Reporter := {
  outputfiles_after :
    list string -> list Byte.byte -> string -> string -> list string
}.

(** A reporter that enters every file name it is given. *)
Definition recording_reporter : Reporter :=
  {| outputfiles_after := fun names _ filename _ => filename :: names |}.

(** A reporter that keeps no names at all. *)
Definition forgetful_reporter : Reporter :=
  {| outputfiles_after := fun names _ _ _ => names |}.

(** ** The deque *)

Definition appendleft (x : ref) (q : list ref) : list ref := x :: q.

(** [deque.pop()]: the right end, [None] on an empty deque. *)
Definition pop (q : list ref) : option (ref * list ref) :=
  match rev q with
  | [] => None
  | x :: r => Some (x, rev r)
  end.

(** The order in which the deque gives its elements back. *)
Definition pending (st : State) : list ref := rev (_fifo_buffer st).

(** ** Control of the [for] loop, results of [dispatch] *)

Inductive control := Continue | Break.

(** A generator, as far as its consumer sees it: it stops, lets an exception
    through, or yields a value and is resumed later in the state of that
    moment. *)
Inductive generator :=
  | StopIteration (st : State)
  | Propagates (st : State)
  | Yield (st : State) (p : ParserClass) (resume : State -> generator).

Inductive result :=
  | Finished (st : State)       (* the queue is empty, [dispatch] returns *)
  | Aborted (st : State)        (* an exception leaves [dispatch] *)
  | Running (st : State).       (* still in the [while] loop *)

Definition state_of (r : result) : State :=
  match r with
  | Finished st | Aborted st | Running st => st
  end.

Section Model.
Context {reporter : Reporter}.

Definition debug (m : message) (st : State) : State := log (Debug m) st.

Definition reporter_output_file (data : list Byte.byte)
    (filename description : string) (st : State) : State :=
  log (OutputFile data filename description)
      (with_outputfiles
         (outputfiles_after (outputfiles st) data filename description) st).

(** [FileObject.output] *)
Definition output (self : ref) (st : State) : State :=
  let o := deref self st in
  if output_file o && negb (_outputted_file o) then
    if bool_decide (file_name o ∈ outputfiles st) then st
    else
      update self (set_outputted_file true)
        (reporter_output_file (file_data o) (file_name o)
           (or_empty (description o)) st)
  else st.

(** The loop of [FileObject.parser_history]: [history] grows at its end while
    the parent links are followed; [None] when [fuel] links were not enough. *)
Fixpoint history_loop (fuel : nat) (os : list FileObject)
    (history : list (option string)) (parent_ : option ref)
    : option (list (option string)) :=
  match parent_ with
  | None => Some history
  | Some p =>
      match fuel with
      | O => None
      | S fuel' =>
          let po := os !!! p in
          history_loop fuel' os (history ++ [parser po]) (parent po)
      end
  end.

(** [FileObject.parser_history] *)
Definition parser_history (fuel : nat) (os : list FileObject)
    (self : FileObject) : option (list (option string)) :=
  match history_loop fuel os [parser self] (parent self) with
  | Some history => Some (rev history)
  | None => None
  end.

(** [Dispatcher.add_to_queue] *)
Definition add_to_queue (file_object : ref) (st : State) : State :=
  let st1 := update file_object (set_parent (_current_file_object st)) st in
  let st2 := log (Queued file_object)
               (with_fifo_buffer (appendleft file_object (_fifo_buffer st1)) st1) in
  match _current_file_object st2 with
  | Some cur =>
      debug (Residual (file_name (deref cur st2))
                      (file_name (deref file_object st2))) st2
  | None => st2
  end.

(** The body of a parser's [run], action by action.  A [FileObject] that
    fails its construction assertion ends the run with that exception. *)
Fixpoint perform (acts : list action) (e : ending) (self : ref) (st : State)
    : State * ending :=
  match acts with
  | [] => (st, e)
  | Mutate m :: acts' => perform acts' e self (update self (apply_mutation m) st)
  | Extract data name desc out :: acts' =>
      match FileObject_init data name desc out with
      | None => (st, RaisesException)
      | Some child =>
          let '(r, st1) := allocate child st in
          perform acts' e self (add_to_queue r st1)
      end
  | Output :: acts' => perform acts' e self (output self (log (OutputCalled self) st))
  | Learn k v :: acts' =>
      perform acts' e self (with_knowledge_base (<[k := v]> (knowledge_base st)) st)
  end.

(** [parser = parser_class(file_object, reporter, self); parser.run()]:
    [ComponentParser.__init__] raises when the class has no [DESCRIPTION]. *)
Definition construct_and_run (p : ParserClass) (fo : ref) (st : State)
    : State * ending :=
  if truthy (DESCRIPTION p) then
    let '(acts, e) := run p (deref fo st) (knowledge_base st) in
    perform acts e fo (log (Ran (class_name p) fo) st)
  else (st, RaisesException).

(** The effect of one [parser_class.identify(file_object)] that answers. *)
Definition answered (parser_class : ParserClass) (file_object : ref)
    (muts : list mutation) (answer : bool) (st : State) : State :=
  log (Asked (class_name parser_class) file_object answer)
      (update file_object (fun o => foldl (flip apply_mutation) o muts) st).

(** The debug line before a class is yielded. *)
Definition announced (parser_class : ParserClass) (file_object : ref)
    (st : State) : State :=
  debug (IdentifiedAs (file_name (deref file_object st))
                      (DESCRIPTION parser_class)) st.

(** The debug line for a file nobody identified and nobody described. *)
Definition unidentified (file_object : ref) (st : State) : State :=
  if truthy (description (deref file_object st)) then st
  else debug (NotIdentified (file_name (deref file_object st))) st.

(** [Dispatcher._identify_file], from the parsers still to be asked and the
    generator's local [identified]. *)
Fixpoint identify_from (D : Dispatcher) (rest : list ParserClass)
    (identified : bool) (file_object : ref) (st : State) : generator :=
  match rest with
  | parser_class :: rest' =>
      match identify parser_class (deref file_object st) with
      | None => Propagates st
      | Some (muts, answer) =>
          let st1 := answered parser_class file_object muts answer st in
          if answer then
            Yield (announced parser_class file_object st1) parser_class
                  (fun st' => identify_from D rest' true file_object st')
          else identify_from D rest' identified file_object st1
      end
  | [] =>
      if identified then StopIteration st
      else
        let st1 := unidentified file_object st in
        match default D with
        | Some d => Yield st1 d (fun st' => StopIteration st')
        | None => StopIteration st1
        end
  end.

Definition _identify_file (D : Dispatcher) (file_object : ref) (st : State)
    : generator :=
  identify_from D (parsers D) false file_object st.

(** What the generator yields when nothing happens between its yields
    ([list(self._identify_file(file_object))]). *)
Fixpoint yielded (g : generator) : list ParserClass :=
  match g with
  | StopIteration _ | Propagates _ => []
  | Yield st p resume => p :: yielded (resume st)
  end.

(** The state the generator leaves when nothing happens between its yields. *)
Fixpoint exhausted (g : generator) : State :=
  match g with
  | StopIteration st | Propagates st => st
  | Yield st p resume => exhausted (resume st)
  end.

(** The head of the body of the [for] loop of [dispatch]: the yielded class
    becomes the current one, lends its [DESCRIPTION] to an undescribed file
    and is entered as the file's parser. *)
Definition claim (parser_class : ParserClass) (file_object : ref) (st : State)
    : State :=
  let st1 := with_current (Some file_object) (Some (class_name parser_class)) st in
  let st2 := if truthy (description (deref file_object st1)) then st1
             else update file_object (set_description (DESCRIPTION parser_class)) st1 in
  update file_object (set_parser (Some (class_name parser_class))) st2.

(** The body of the [for] loop of [dispatch], for one yielded class. *)
Definition attempt (D : Dispatcher) (parser_class : ParserClass)
    (file_object : ref) (st : State) : State * control :=
  let '(st4, e) := construct_and_run parser_class file_object
                     (claim parser_class file_object st) in
  let st5 := log (Ended (class_name parser_class) file_object e) st4 in
  match e with
  | RaisesUnableToParse =>
      (debug (MissIdentified (file_name (deref file_object st5))
                             (DESCRIPTION parser_class)) st5, Continue)
  | RaisesException =>
      (debug (ParserFailed (class_name parser_class)) st5,
       if greedy D then Continue else Break)
  | Returns => (st5, if greedy D then Continue else Break)
  end.

(** [for parser_class in self._identify_file(file_object): ...] *)
Fixpoint for_each (D : Dispatcher) (file_object : ref) (g : generator) : result :=
  match g with
  | StopIteration st => Finished st
  | Propagates st => Aborted st
  | Yield st parser_class resume =>
      match attempt D parser_class file_object st with
      | (st', Break) => Finished st'
      | (st', Continue) => for_each D file_object (resume st')
      end
  end.

(** One turn of the [while] loop of [dispatch], on the object just popped. *)
Definition process (D : Dispatcher) (file_object : ref) (st : State) : result :=
  match for_each D file_object (_identify_file D file_object st) with
  | Finished st' => Finished (output file_object (log (OutputCalled file_object) st'))
  | Aborted st' => Aborted st'
  | Running st' => Running st'
  end.

(** [Dispatcher.dispatch], for at most [turns] turns of its [while] loop. *)
Fixpoint dispatch (D : Dispatcher) (turns : nat) (st : State) : result :=
  match pop (_fifo_buffer st) with
  | None => Finished st
  | Some (file_object, q) =>
      match turns with
      | O => Running st
      | S turns' =>
          match process D file_object (log (Popped file_object) (with_fifo_buffer q st)) with
          | Finished st' => dispatch D turns' st'
          | Aborted st' => Aborted st'
          | Running st' => Running st'
          end
      end
  end.

(** [Dispatcher.run]: the file of the reporter, under its base name, is the
    seed; it is not to be output. *)
Definition Dispatcher_run (D : Dispatcher) (data : list Byte.byte)
    (name : string) (turns : nat) (st : State) : result :=
  let st1 := debug ParsingStarted st in
  match FileObject_init data name None false with
  | None => Aborted st1
  | Some input_file =>
      let '(r, st2) := allocate input_file st1 in
      dispatch D turns (add_to_queue r st2)
  end.

End Model.

(** ** Reading the log *)

(** Each reading keeps the calls of one kind, in the order of the log. *)

Definition queued_of (e : event) : list ref :=
  match e with Queued fo => [fo] | _ => [] end.
Definition queued (evs : list event) : list ref := flat_map queued_of evs.

Definition popped_of (e : event) : list ref :=
  match e with Popped fo => [fo] | _ => [] end.
Definition popped (evs : list event) : list ref := flat_map popped_of evs.

Definition asked_of (e : event) : list (string * ref * bool) :=
  match e with Asked c fo b => [(c, fo, b)] | _ => [] end.
Definition asked (evs : list event) : list (string * ref * bool) :=
  flat_map asked_of evs.

(** The classes that answered [True]. *)
Definition matched_of (e : event) : list (string * ref) :=
  match e with Asked c fo true => [(c, fo)] | _ => [] end.
Definition matched (evs : list event) : list (string * ref) :=
  flat_map matched_of evs.

Definition ran_of (e : event) : list (string * ref) :=
  match e with Ran c fo => [(c, fo)] | _ => [] end.
Definition ran (evs : list event) : list (string * ref) := flat_map ran_of evs.

Definition ended_of (e : event) : list (string * ref * ending) :=
  match e with Ended c fo e => [(c, fo, e)] | _ => [] end.
Definition ended (evs : list event) : list (string * ref * ending) :=
  flat_map ended_of evs.

(** The classes that were tried, whatever the ending. *)
Definition tried_of (e : event) : list (string * ref) :=
  match e with Ended c fo _ => [(c, fo)] | _ => [] end.
Definition tried (evs : list event) : list (string * ref) := flat_map tried_of evs.

Definition output_calls_of (e : event) : list ref :=
  match e with OutputCalled fo => [fo] | _ => [] end.
Definition output_calls (evs : list event) : list ref :=
  flat_map output_calls_of evs.

Definition sink_calls_of (e : event) : list (list Byte.byte * string * string) :=
  match e with OutputFile d n desc => [(d, n, desc)] | _ => [] end.
Definition sink_calls (evs : list event) : list (list Byte.byte * string * string) :=
  flat_map sink_calls_of evs.

(** ** Notions the statements use *)

(** The depth of a file object below the object that has no parent. *)
Inductive depth_in (os : list FileObject) : FileObject -> nat -> Prop :=
  | depth_seed o : parent o = None -> depth_in os o 0
  | depth_child o p n :
      parent o = Some p -> depth_in os (os !!! p) n -> depth_in os o (S n).

(** The parser entries from the object without parent down to [o]. *)
Inductive lineage (os : list FileObject) : FileObject -> list (option string) -> Prop :=
  | lineage_seed o : parent o = None -> lineage os o [parser o]
  | lineage_child o p l :
      parent o = Some p -> lineage os (os !!! p) l ->
      lineage os o (l ++ [parser o]).

(** Every class of [ps], asked in turn as [_identify_file] asks them, answers
    [False]; the result is the object as the predicates leave it. *)
Fixpoint declined_by (ps : list ParserClass) (o : FileObject) : option FileObject :=
  match ps with
  | [] => Some o
  | p :: ps' =>
      match identify p o with
      | Some (muts, false) => declined_by ps' (foldl (flip apply_mutation) o muts)
      | _ => None
      end
  end.

(** A class whose [run] never assigns [file_object.description]. *)
Definition keeps_description (acts : list action) : Prop :=
  Forall (fun a => match a with Mutate (SetDescription _) => False | _ => True end) acts.

Definition is_aborted (r : result) : bool :=
  match r with Aborted _ => true | _ => false end.

Definition is_finished (r : result) : bool :=
  match r with Finished _ => true | _ => false end.

(** What holds between a state and a later state of the same turn of the
    [while] loop, [evs] being the calls logged in between: nothing is popped,
    what is queued goes behind what was pending, and only objects created in
    between are queued. *)
Definition within_turn (st st' : State) (evs : list event) : Prop :=
  trace st' = trace st ++ evs
  /\ popped evs = []
  /\ pending st' = pending st ++ queued evs
  /\ Forall (fun r => length (objects st) <= r) (queued evs)
  /\ length (objects st) <= length (objects st').

(** Whether the [for] loop goes on after a class ended with [e]. *)
Definition control_after (D : Dispatcher) (e : ending) : control :=
  match e with
  | RaisesUnableToParse => Continue
  | _ => if greedy D then Continue else Break
  end.

(** The same for what a parser's [run] can cause: besides, no class is asked
    or tried and the dispatcher's current file object stays. *)
Definition within_run (st st' : State) (evs : list event) : Prop :=
  within_turn st st' evs
  /\ asked evs = [] /\ ran evs = [] /\ ended evs = []
  /\ _current_file_object st' = _current_file_object st.

(** The default class as an entry of [tried]. *)
Definition default_entry (D : Dispatcher) (fo : ref) : list (string * ref) :=
  match default D with
  | Some d => [(class_name d, fo)]
  | None => []
  end.

(** An ending other than [UnableToParse] comes last, if at all. *)
Definition misidentified_but_last (fo : ref)
    (l : list (string * ref * ending)) : Prop :=
  exists cs last,
    l = ((fun c => (c, fo, RaisesUnableToParse)) <$> cs) ++ last
    /\ length last <= 1.

(** The states the dispatcher builds when it is only ever given file objects
    that were just created: the current file object and the queued ones are
    in the store, and a parent was created before its child. *)
Definition well_parented (st : State) : Prop :=
  (forall c, _current_file_object st = Some c -> c < length (objects st))
  /\ Forall (fun q => q < length (objects st)) (_fifo_buffer st)
  /\ (forall i o p, objects st !! i = Some o -> parent o = Some p -> p < i).

(** ** What [dispatch] does to the state, step by step *)

Section Steps.
Context {reporter : Reporter}.

(** The single changes of state out of which everything the dispatcher and
    the parsers' runs do is made. *)
Inductive elementary : State -> State -> Prop :=
  | el_log e st :
      sink_calls_of e = [] -> elementary st (log e st)
  | el_mutate fo m st :
      elementary st (update fo (apply_mutation m) st)
  | el_set_parser fo c st :
      elementary st (update fo (set_parser c) st)
  | el_current fo c st :
      elementary st (with_current fo c st)
  | el_fifo_buffer q st :
      elementary st (with_fifo_buffer q st)
  | el_learn k v st :
      elementary st (with_knowledge_base (<[k := v]> (knowledge_base st)) st)
  | el_extract data name desc out child st :
      FileObject_init data name desc out = Some child ->
      elementary st (add_to_queue (allocate child st).1 (allocate child st).2)
  | el_emit self st :
      output_file (deref self st) = true ->
      _outputted_file (deref self st) = false ->
      file_name (deref self st) ∉ outputfiles st ->
      elementary st
        (update self (set_outputted_file true)
           (reporter_output_file (file_data (deref self st))
              (file_name (deref self st))
              (or_empty (description (deref self st))) st)).

(** The attributes of a file object the dispatcher leaves alone. *)
Definition same_origin (o o' : FileObject) : Prop :=
  file_data o' = file_data o
  /\ output_file o' = output_file o
  /\ parent o' = parent o.

(** Every object of [st] is still there in [st'], with the same data, output
    flag and parent; once outputted it stays outputted, and when it is not to
    be output it is not marked as outputted. *)
Definition keeps_objects (st st' : State) : Prop :=
  forall r o, objects st !! r = Some o ->
    exists o', objects st' !! r = Some o'
      /\ same_origin o o'
      /\ (_outputted_file o = true -> _outputted_file o' = true)
      /\ (output_file o = false -> _outputted_file o' = _outputted_file o).

(** Only files that are to be output are marked as outputted. *)
Definition outputted_wanted (st : State) : Prop :=
  forall r o, objects st !! r = Some o ->
    _outputted_file o = true -> output_file o = true.

(** The file names handed to [reporter.output_file]. *)
Definition sink_names (evs : list event) : list string :=
  (fun c => c.1.2) <$> sink_calls evs.

(** A reporter whose [output_file] enters the file name into [outputfiles]
    and drops none. *)
Definition records_names : Prop :=
  forall names data filename desc,
    filename ∈ outputfiles_after names data filename desc
    /\ (forall n, n ∈ names -> n ∈ outputfiles_after names data filename desc).

(** What was logged from [st] to [st'] shows no file name twice, and none
    that the reporter had before; the reporter has them all afterwards. *)
Definition fresh_names (st st' : State) : Prop :=
  exists evs,
    trace st' = trace st ++ evs
    /\ (forall n, n ∈ outputfiles st -> n ∈ outputfiles st')
    /\ NoDup (sink_names evs)
    /\ (forall n, n ∈ sink_names evs ->
          (n ∉ outputfiles st) /\ n ∈ outputfiles st').

End Steps.

(** ** Variations of a class and of a dispatcher *)

(** The class [p] with another [identify]. *)
Definition with_identify (f : FileObject -> option (list mutation * bool))
    (p : ParserClass) : ParserClass :=
  {| class_name := class_name p; DESCRIPTION := DESCRIPTION p;
     identify := f; run := run p |}.

(** The dispatcher [D] with another default class. *)
Definition with_default (d : option ParserClass) (D : Dispatcher) : Dispatcher :=
  {| parsers := parsers D; greedy := greedy D; default := d |}.

(** A class whose [run] never queues a file. *)
Definition extracts_nothing (p : ParserClass) : Prop :=
  forall o kb,
    Forall (fun a => match a with Extract _ _ _ _ => False | _ => True end)
           (run p o kb).1.

(** ** The lazily computed attributes of [FileObject] *)

(** The attributes of a file object that the dispatcher does not look at:
    the PE object, the caches behind the properties [md5], [file_path] and
    [resources], and the stream opened by [__enter__].  They go along with
    the [FileObject] record.  A stream is referred to by its position among
    the streams opened so far. *)
Record Attributes {PE Resource : Type} := mkAttributes {
  pe : option PE;
  _md5 : option (list Byte.byte);
  _file_path : option string;
  _resources : option (list Resource);
  _open_file : option ref
}.
Arguments Attributes : clear implicits.

(** What the class calls and does not define: [pefileutils], [hashlib], the
    hex codec, [os.path.join] and the reporter's temporary directory. *)
Record Helpers {PE Resource : Type} := mkHelpers {
  obtain_pe : list Byte.byte -> option PE;
  (* def_stub, pe, use_arch *)
  obtain_original_filename : string -> option PE -> bool -> string;
  iter_rsrc : PE -> list Resource;
  hashlib_md5 : list Byte.byte -> list Byte.byte;
  encode_hex : list Byte.byte -> string;
  os_path_join : string -> string -> string;
  managed_tempdir : string
}.
Arguments Helpers : clear implicits.

(** The calls of helpers, for the log. *)
Inductive helper_call :=
  | ObtainPe
  | ObtainOriginalFilename (def_stub : string)
  | Md5Digest
  | IterRsrc
  | ManagedTempdir.

(** An [io.BytesIO]: its buffer and whether it was closed. *)
Record BytesIO := mkBytesIO {
  buffer : list Byte.byte;
  closed : bool
}.

(** What is outside the objects: the files written, the streams opened and
    the helpers called, in order. *)
Record World := mkWorld {
  files : gmap string (list Byte.byte);
  streams : list BytesIO;
  helper_calls : list helper_call
}.

Definition called (c : helper_call) (w : World) : World :=
  {| files := files w; streams := streams w;
     helper_calls := helper_calls w ++ [c] |}.

Definition written (path : string) (data : list Byte.byte) (w : World) : World :=
  {| files := <[path := data]> (files w); streams := streams w;
     helper_calls := helper_calls w |}.

Definition with_streams (s : list BytesIO) (w : World) : World :=
  {| files := files w; streams := s; helper_calls := helper_calls w |}.

Definition close (s : BytesIO) : BytesIO :=
  {| buffer := buffer s; closed := true |}.

(** Python truthiness of optional bytes and of an optional list. *)
Definition nonempty {A} (l : option (list A)) : bool :=
  match l with
  | Some (_ :: _) => true
  | _ => false
  end.

(** The bytes behind an optional value that is known to be there. *)
Definition or_no_bytes (b : option (list Byte.byte)) : list Byte.byte :=
  match b with
  | Some b => b
  | None => []
  end.

Section FileObjectAttributes.
Context {PE Resource : Type} (h : Helpers PE Resource).

Definition set__md5 (v : option (list Byte.byte)) (a : Attributes PE Resource)
    : Attributes PE Resource :=
  {| pe := pe a; _md5 := v; _file_path := _file_path a;
     _resources := _resources a; _open_file := _open_file a |}.

Definition set__file_path (v : option string) (a : Attributes PE Resource)
    : Attributes PE Resource :=
  {| pe := pe a; _md5 := _md5 a; _file_path := v;
     _resources := _resources a; _open_file := _open_file a |}.

Definition set__resources (v : option (list Resource)) (a : Attributes PE Resource)
    : Attributes PE Resource :=
  {| pe := pe a; _md5 := _md5 a; _file_path := _file_path a;
     _resources := v; _open_file := _open_file a |}.

Definition set__open_file (v : option ref) (a : Attributes PE Resource)
    : Attributes PE Resource :=
  {| pe := pe a; _md5 := _md5 a; _file_path := _file_path a;
     _resources := _resources a; _open_file := v |}.

(** The property [FileObject.md5] *)
Definition md5 (self : FileObject) (a : Attributes PE Resource) (w : World)
    : list Byte.byte * Attributes PE Resource * World :=
  if nonempty (_md5 a) then (or_no_bytes (_md5 a), a, w)
  else
    let digest := hashlib_md5 h (file_data self) in
    (digest, set__md5 (Some digest) a, called Md5Digest w).

(** [FileObject.__init__], with all its arguments; [None] when the assertion
    on the file name fails. *)
Definition FileObject___init__ (file_data : list Byte.byte) (pe_arg : option PE)
    (file_name : option string) (def_stub : option string)
    (description : option string)
    (output_file use_supplied_fname use_arch : bool) (w : World)
    : option (FileObject * Attributes PE Resource) * World :=
  let '(pe1, w1) :=
    match pe_arg with
    | Some p => (Some p, w)
    | None => (obtain_pe h file_data, called ObtainPe w)
    end in
  let use_supplied := use_supplied_fname || negb (bool_decide (is_Some pe1)) in
  let '(name, cache, w2) :=
    if truthy file_name && use_supplied then (or_empty file_name, None, w1)
    else if truthy def_stub then
      (obtain_original_filename h (or_empty def_stub) pe1 use_arch, None,
       called (ObtainOriginalFilename (or_empty def_stub)) w1)
    else
      let digest := hashlib_md5 h file_data in
      (obtain_original_filename h (encode_hex h digest) pe1 use_arch,
       Some digest,
       called (ObtainOriginalFilename (encode_hex h digest))
         (called Md5Digest w1)) in
  match FileObject_init file_data name description output_file with
  | Some o =>
      (Some (o, {| pe := pe1; _md5 := cache; _file_path := None;
                   _resources := None; _open_file := None |}), w2)
  | None => (None, w2)
  end.

(** The property [FileObject.file_path]; writing the file is taken to
    succeed. *)
Definition file_path (self : FileObject) (a : Attributes PE Resource) (w : World)
    : string * Attributes PE Resource * World :=
  if truthy (_file_path a) then (or_empty (_file_path a), a, w)
  else
    let path := os_path_join h (managed_tempdir h) (file_name self) in
    (path, set__file_path (Some path) a,
     written path (file_data self) (called ManagedTempdir w)).

(** The setter of [file_path] *)
Definition file_path_setter (value : option string) (a : Attributes PE Resource)
    : Attributes PE Resource :=
  set__file_path value a.

(** The property [FileObject.resources] *)
Definition resources (a : Attributes PE Resource) (w : World)
    : option (list Resource) * Attributes PE Resource * World :=
  match pe a with
  | Some p =>
      if nonempty (_resources a) then (_resources a, a, w)
      else
        let found := iter_rsrc h p in
        (Some found, set__resources (Some found) a, called IterRsrc w)
  | None => (_resources a, a, w)
  end.

(** [FileObject.__enter__]: a new stream over the data, which is returned *)
Definition __enter__ (self : FileObject) (a : Attributes PE Resource) (w : World)
    : ref * Attributes PE Resource * World :=
  (length (streams w),
   set__open_file (Some (length (streams w))) a,
   with_streams (streams w ++ [{| buffer := file_data self; closed := false |}]) w).

(** [FileObject.__exit__]: closes the stream [_open_file] refers to; [None]
    when the attribute was never set. *)
Definition __exit__ (a : Attributes PE Resource) (w : World) : option World :=
  match _open_file a with
  | Some r => Some (with_streams (alter close r (streams w)) w)
  | None => None
  end.

End FileObjectAttributes.

(** ** Concrete classes, objects and states used to exercise the model *)

Section Scenarios.
#[local] Existing Instance recording_reporter.

(** A seed as [Dispatcher.run] builds it: named, undescribed, not output. *)
Definition seed_object : FileObject :=
  {| file_data := []; file_name := "sample.bin"; description := None;
     output_file := false; _outputted_file := false;
     parent := None; parser := None |}.

(** An extracted file that is to be output. *)
Definition payload_object : FileObject :=
  {| file_data := []; file_name := "payload.bin"; description := None;
     output_file := true; _outputted_file := false;
     parent := None; parser := None |}.

(** The same file, described by whoever created it. *)
Definition described_object : FileObject :=
  {| file_data := []; file_name := "payload.bin";
     description := Some "Dropper configuration"%string;
     output_file := true; _outputted_file := false;
     parent := None; parser := None |}.

(** A file extracted by the class [Loader] from another one that class
    [Dropper] had parsed. *)
Definition dropped_object : FileObject :=
  {| file_data := []; file_name := "stage1.bin"; description := None;
     output_file := true; _outputted_file := true;
     parent := None; parser := Some "Dropper"%string |}.

Definition loaded_object : FileObject :=
  {| file_data := []; file_name := "stage2.bin"; description := None;
     output_file := true; _outputted_file := false;
     parent := Some 0; parser := Some "Loader"%string |}.

Definition state_with (os : list FileObject) (names : list string) (q : list ref)
    : State :=
  {| objects := os; outputfiles := names; _fifo_buffer := q;
     _current_file_object := None; _current_parser_class := None;
     knowledge_base := ∅; trace := [] |}.

(** A class that never recognises a file. *)
Definition Decliner : ParserClass :=
  {| class_name := "Decliner";
     DESCRIPTION := Some "Never matches"%string;
     identify := fun _ => Some ([], false);
     run := fun _ _ => ([], Returns) |}.

(** A class that recognises every file and then finds it cannot parse it. *)
Definition Picky : ParserClass :=
  {| class_name := "Picky";
     DESCRIPTION := Some "Packed sample"%string;
     identify := fun _ => Some ([], true);
     run := fun _ _ => ([], RaisesUnableToParse) |}.

(** A class that recognises every file and parses it. *)
Definition Implant : ParserClass :=
  {| class_name := "Implant";
     DESCRIPTION := Some "Implant"%string;
     identify := fun _ => Some ([], true);
     run := fun _ _ => ([], Returns) |}.

(** A class that recognises every file and fails on it. *)
Definition Crasher : ParserClass :=
  {| class_name := "Crasher";
     DESCRIPTION := Some "Broken parser"%string;
     identify := fun _ => Some ([], true);
     run := fun _ _ => ([], RaisesException) |}.

(** A class whose [identify] looks at the first byte of the data
    ([file_object.file_data[0]]) and so raises [IndexError] on empty data. *)
Definition MZHeader : ParserClass :=
  {| class_name := "MZHeader";
     DESCRIPTION := Some "Executable"%string;
     identify := fun o =>
       match file_data o with
       | [] => None
       | b :: _ => Some ([], Byte.eqb b Byte.x4d)
       end;
     run := fun _ _ => ([], Returns) |}.

(** A class that recognises the seed and extracts a payload from it. *)
Definition Loader : ParserClass :=
  {| class_name := "Loader";
     DESCRIPTION := Some "Loader"%string;
     identify := fun o => Some ([], String.eqb (file_name o) "sample.bin");
     run := fun _ _ =>
       ([Learn "xorkey" "0x41"; Extract [] "payload.bin" None true], Returns) |}.

Definition first_match_dispatcher : Dispatcher :=
  {| parsers := [Picky; Implant]; greedy := false;
     default := Some UnidentifiedFile |}.

Definition greedy_dispatcher : Dispatcher :=
  {| parsers := [Picky; Crasher; Decliner; Implant]; greedy := true;
     default := Some UnidentifiedFile |}.

Definition default_only_dispatcher : Dispatcher :=
  {| parsers := [Decliner]; greedy := false;
     default := Some UnidentifiedFile |}.

Definition header_dispatcher : Dispatcher :=
  {| parsers := [MZHeader]; greedy := false;
     default := Some UnidentifiedFile |}.

Definition crashing_dispatcher : Dispatcher :=
  {| parsers := [Crasher]; greedy := false;
     default := Some UnidentifiedFile |}.

Definition loader_dispatcher : Dispatcher :=
  {| parsers := [Loader]; greedy := false;
     default := Some UnidentifiedFile |}.

(** The seed alone, queued. *)
Definition seed_state : State := state_with [seed_object] [] [0].

(** A file to output, not yet known to the reporter. *)
Definition fresh_payload_state : State := state_with [payload_object] [] [].

(** A file to output whose name the reporter already has. *)
Definition known_payload_state : State :=
  state_with [payload_object] ["payload.bin"%string] [].

(** A described file, queued. *)
Definition described_state : State := state_with [described_object] [] [0].

(** Two files with empty data, queued one after the other. *)
Definition two_queued_state : State :=
  state_with [payload_object; described_object] [] [1; 0].

(** A new dispatcher whose caller has created the seed and queued it. *)
Definition seeded : State :=
  add_to_queue (allocate seed_object Dispatcher_init).1
               (allocate seed_object Dispatcher_init).2.

(** The same after [dispatch] has returned. *)
Definition after_first_dispatch : State :=
  state_of (dispatch default_only_dispatcher 1 seeded).

(** The caller then creates a second file object and queues it. *)
Definition queued_after_dispatch : State :=
  add_to_queue (allocate payload_object after_first_dispatch).1
               (allocate payload_object after_first_dispatch).2.

End Scenarios.

(** ** Further classes, states and helpers used to exercise the model *)

Section MoreScenarios.
#[local] Existing Instance recording_reporter.

(** A class that recognises every file and has no [DESCRIPTION]. *)
Definition Unlabelled : ParserClass :=
  {| class_name := "Unlabelled";
     DESCRIPTION := None;
     identify := fun _ => Some ([], true);
     run := fun _ _ => ([], Returns) |}.

Definition unlabelled_dispatcher : Dispatcher :=
  {| parsers := [Decliner; Unlabelled; Implant]; greedy := false;
     default := Some UnidentifiedFile |}.

(** The seed queued, with a key already in the knowledge base. *)
Definition learned_state : State :=
  with_knowledge_base (<["xorkey"%string := "0x41"%string]> ∅) seed_state.

(** Stand-ins for the helpers: data that starts with [MZ] is a PE, whose
    resources are the names listed; every digest is one zero byte. *)
Definition stub_helpers : Helpers (list string) string :=
  {| obtain_pe := fun data =>
       match data with
       | b1 :: b2 :: _ =>
           if Byte.eqb b1 Byte.x4d && Byte.eqb b2 Byte.x5a then Some [] else None
       | _ => None
       end;
     obtain_original_filename := fun stub _ _ => String.append stub ".bin";
     iter_rsrc := fun p => p;
     hashlib_md5 := fun _ => [Byte.x00];
     encode_hex := fun _ => "00"%string;
     os_path_join := fun dir name => String.append dir (String.append "/" name);
     managed_tempdir := "/tmp/mwcp"%string |}.

(** The file object [FileObject(b'', reporter, file_name='dropper.exe')]. *)
Definition payload_like : FileObject :=
  {| file_data := []; file_name := "dropper.exe"; description := None;
     output_file := true; _outputted_file := false;
     parent := None; parser := None |}.

Definition empty_world : World :=
  {| files := ∅; streams := []; helper_calls := [] |}.

Definition new_attributes : Attributes (list string) string :=
  {| pe := None; _md5 := None; _file_path := None; _resources := None;
     _open_file := None |}.

End MoreScenarios.

(** * Properties *)

Section Properties.
Context {reporter : Reporter}.
Implicit Types (st : State) (fo : ref) (o : FileObject) (D : Dispatcher).

(** ** Reading the log piece by piece *)

#[local] Arguments queued : simpl never.
#[local] Arguments popped : simpl never.
#[local] Arguments asked : simpl never.
#[local] Arguments matched : simpl never.
#[local] Arguments ran : simpl never.
#[local] Arguments ended : simpl never.
#[local] Arguments tried : simpl never.
#[local] Arguments output_calls : simpl never.
#[local] Arguments sink_calls : simpl never.

Lemma queued_app evs1 evs2 : queued (evs1 ++ evs2) = queued evs1 ++ queued evs2.
Proof. apply flat_map_app. Qed.
Lemma queued_cons e evs : queued (e :: evs) = queued_of e ++ queued evs.
Proof. done. Qed.
Lemma popped_app evs1 evs2 : popped (evs1 ++ evs2) = popped evs1 ++ popped evs2.
Proof. apply flat_map_app. Qed.
Lemma popped_cons e evs : popped (e :: evs) = popped_of e ++ popped evs.
Proof. done. Qed.
Lemma asked_app evs1 evs2 : asked (evs1 ++ evs2) = asked evs1 ++ asked evs2.
Proof. apply flat_map_app. Qed.
Lemma asked_cons e evs : asked (e :: evs) = asked_of e ++ asked evs.
Proof. done. Qed.
Lemma matched_app evs1 evs2 : matched (evs1 ++ evs2) = matched evs1 ++ matched evs2.
Proof. apply flat_map_app. Qed.
Lemma matched_cons e evs : matched (e :: evs) = matched_of e ++ matched evs.
Proof. done. Qed.
Lemma ran_app evs1 evs2 : ran (evs1 ++ evs2) = ran evs1 ++ ran evs2.
Proof. apply flat_map_app. Qed.
Lemma ran_cons e evs : ran (e :: evs) = ran_of e ++ ran evs.
Proof. done. Qed.
Lemma ended_app evs1 evs2 : ended (evs1 ++ evs2) = ended evs1 ++ ended evs2.
Proof. apply flat_map_app. Qed.
Lemma ended_cons e evs : ended (e :: evs) = ended_of e ++ ended evs.
Proof. done. Qed.
Lemma tried_app evs1 evs2 : tried (evs1 ++ evs2) = tried evs1 ++ tried evs2.
Proof. apply flat_map_app. Qed.
Lemma tried_cons e evs : tried (e :: evs) = tried_of e ++ tried evs.
Proof. done. Qed.
Lemma output_calls_app evs1 evs2 :
  output_calls (evs1 ++ evs2) = output_calls evs1 ++ output_calls evs2.
Proof. apply flat_map_app. Qed.
Lemma output_calls_cons e evs :
  output_calls (e :: evs) = output_calls_of e ++ output_calls evs.
Proof. done. Qed.
Lemma sink_calls_app evs1 evs2 :
  sink_calls (evs1 ++ evs2) = sink_calls evs1 ++ sink_calls evs2.
Proof. apply flat_map_app. Qed.
Lemma sink_calls_cons e evs :
  sink_calls (e :: evs) = sink_calls_of e ++ sink_calls evs.
Proof. done. Qed.

Create Rewrite HintDb log.
Hint Rewrite queued_app popped_app asked_app matched_app ran_app ended_app
  tried_app output_calls_app sink_calls_app
  queued_cons popped_cons asked_cons matched_cons ran_cons ended_cons
  tried_cons output_calls_cons sink_calls_cons : log.

(** Reading a log: split it into its pieces and read the calls that are
    known. *)
Ltac read_log := autorewrite with log; cbn [queued_of popped_of asked_of
  matched_of ran_of ended_of tried_of output_calls_of sink_calls_of app].

(** What was tried and what matched, from what ended and what was asked. *)
Lemma tried_ended evs : tried evs = (fun a => (a.1.1, a.1.2)) <$> ended evs.
Proof.
  induction evs as [|e evs IH]; [done|].
  rewrite tried_cons, ended_cons, fmap_app, IH. by destruct e.
Qed.

Lemma matched_none evs : asked evs = [] -> matched evs = [].
Proof.
  induction evs as [|e evs IH]; [done|].
  rewrite asked_cons, matched_cons. intros [H1 H2]%app_eq_nil.
  rewrite IH by done. by destruct e.
Qed.

Lemma matched_asked evs :
  matched evs = (fun a => a.1) <$> filter (fun a => a.2 = true) (asked evs).
Proof.
  induction evs as [|e evs IH]; [done|].
  rewrite matched_cons, asked_cons, IH.
  by destruct e as [| |c fo []| | | | |].
Qed.

Lemma tried_none evs : ended evs = [] -> tried evs = [].
Proof. intros H. by rewrite tried_ended, H. Qed.

Lemma tried_one evs c fo e : ended evs = [(c, fo, e)] -> tried evs = [(c, fo)].
Proof. intros H. by rewrite tried_ended, H. Qed.

(** ** Steps within a turn *)

Lemma within_turn_refl st : within_turn st st [].
Proof. unfold within_turn. rewrite !app_nil_r. split_and!; auto. Qed.

Lemma within_turn_trans st1 st2 st3 evs1 evs2 :
  within_turn st1 st2 evs1 -> within_turn st2 st3 evs2 ->
  within_turn st1 st3 (evs1 ++ evs2).
Proof.
  intros (Ht1 & Hp1 & Hq1 & Hf1 & Hl1) (Ht2 & Hp2 & Hq2 & Hf2 & Hl2).
  unfold within_turn. autorewrite with log.
  rewrite Ht2, Ht1, Hp1, Hp2, Hq2, Hq1, !app_assoc.
  split_and!; auto; [|lia].
  apply Forall_app. split; [done|].
  eapply Forall_impl; [exact Hf2|]. simpl. intros; lia.
Qed.

(** A step that logs calls other than queue operations and leaves the queue
    and the number of objects alone. *)
Lemma within_turn_silent st st' evs :
  trace st' = trace st ++ evs -> popped evs = [] -> queued evs = [] ->
  _fifo_buffer st' = _fifo_buffer st ->
  length (objects st') = length (objects st) ->
  within_turn st st' evs.
Proof.
  intros Ht Hp Hq Hf Hl. unfold within_turn, pending.
  rewrite Ht, Hp, Hq, Hf, Hl, app_nil_r. split_and!; auto.
Qed.

(** A step that logs nothing and leaves the queue and the number of objects
    alone. *)
Lemma within_turn_unlogged st st' :
  trace st' = trace st ->
  _fifo_buffer st' = _fifo_buffer st ->
  length (objects st') = length (objects st) ->
  within_turn st st' [].
Proof.
  intros Ht Hf Hl. apply within_turn_silent; try done. by rewrite app_nil_r.
Qed.

(** ** The object store *)

Lemma deref_update_eq fo f st :
  fo < length (objects st) -> deref fo (update fo f st) = f (deref fo st).
Proof. intros Hlt. unfold deref, update. simpl. by apply list_lookup_total_alter_eq. Qed.

Lemma deref_update_ne fo fo' f st :
  fo <> fo' -> deref fo' (update fo f st) = deref fo' st.
Proof. intros Hne. unfold deref, update. simpl. by apply list_lookup_total_alter_ne. Qed.

Lemma length_objects_update fo f st :
  length (objects (update fo f st)) = length (objects st).
Proof. unfold update. simpl. apply length_alter. Qed.

(** ** [FileObject.output] *)

Lemma output_after_emission fo st :
  _outputted_file (deref fo st) = true -> output fo st = st.
Proof. intros H. unfold output. rewrite H. by rewrite andb_false_r. Qed.

Lemma output_not_wanted fo st :
  output_file (deref fo st) = false -> output fo st = st.
Proof. intros H. unfold output. by rewrite H. Qed.

Lemma output_name_present fo st :
  file_name (deref fo st) ∈ outputfiles st -> output fo st = st.
Proof.
  intros H. unfold output.
  destruct (output_file _ && negb _); [|done].
  by rewrite bool_decide_eq_true_2.
Qed.

Lemma output_emits fo st :
  fo < length (objects st) ->
  output_file (deref fo st) = true ->
  _outputted_file (deref fo st) = false ->
  file_name (deref fo st) ∉ outputfiles st ->
  output fo st =
    update fo (set_outputted_file true)
      (reporter_output_file (file_data (deref fo st)) (file_name (deref fo st))
         (or_empty (description (deref fo st))) st).
Proof.
  intros _ Hout Hnot Hname. unfold output. rewrite Hout, Hnot. simpl.
  by rewrite bool_decide_eq_false_2.
Qed.

Lemma output_within_run fo st :
  exists evs, within_run st (output fo st) evs /\ output_calls evs = [].
Proof.
  unfold output.
  destruct (output_file _ && negb _); [destruct (bool_decide _)|].
  - exists []. split; [|done]. split; [apply within_turn_refl|done].
  - eexists. split; [split; [apply within_turn_silent|]|]; simpl;
      [reflexivity|done|done|done|apply length_alter|done|done].
  - exists []. split; [|done]. split; [apply within_turn_refl|done].
Qed.

(** C8 (as amended).  For a file object whose [output_file] flag is set, that
    has not been outputted and whose file name is not among the reporter's
    [outputfiles], two calls of [output()] make exactly one call of the
    reporter's [output_file], the second call changing nothing; and any call
    of [output()] on an object already outputted changes nothing. *)
Theorem output_twice_emits_once fo st :
  fo < length (objects st) ->
  output_file (deref fo st) = true ->
  _outputted_file (deref fo st) = false ->
  file_name (deref fo st) ∉ outputfiles st ->
  trace (output fo (output fo st)) =
    trace st ++ [OutputFile (file_data (deref fo st)) (file_name (deref fo st))
                            (or_empty (description (deref fo st)))]
  /\ output fo (output fo st) = output fo st
  /\ _outputted_file (deref fo (output fo st)) = true
  /\ (forall st', _outputted_file (deref fo st') = true -> output fo st' = st').
Proof.
  intros Hlt Hout Hnot Hname.
  assert (Hflag : _outputted_file (deref fo (output fo st)) = true).
  { rewrite output_emits by done. by rewrite deref_update_eq. }
  assert (Hsame : output fo (output fo st) = output fo st)
    by (by apply output_after_emission).
  split_and!; [|done|done|apply output_after_emission].
  rewrite Hsame, output_emits by done. done.
Qed.

(** C10.  When the file name is already among the reporter's [outputfiles],
    [output()] changes nothing: the reporter's [output_file] is not called and
    [_outputted_file] stays as it was, so [False] stays [False]; a later call
    can then still emit the object, here after it was given a name the
    reporter does not have. *)
Theorem output_skips_known_name fo st :
  file_name (deref fo st) ∈ outputfiles st ->
  output fo st = st
  /\ sink_calls (trace (output fo st)) = sink_calls (trace st)
  /\ (_outputted_file (deref fo st) = false ->
      _outputted_file (deref fo (output fo st)) = false)
  /\ (forall n,
        fo < length (objects st) ->
        output_file (deref fo st) = true ->
        _outputted_file (deref fo st) = false ->
        n ∉ outputfiles st ->
        sink_calls (trace (output fo (update fo (set_file_name n) (output fo st)))) =
          sink_calls (trace st) ++
            [(file_data (deref fo st), n, or_empty (description (deref fo st)))]).
Proof.
  intros Hin. pose proof (output_name_present fo st Hin) as Heq.
  rewrite Heq. split_and!; try done.
  intros n Hlt Hout Hnot Hn.
  rewrite output_emits.
  - rewrite !deref_update_eq by done. simpl.
    by rewrite sink_calls_app.
  - by rewrite length_objects_update.
  - by rewrite deref_update_eq.
  - by rewrite deref_update_eq.
  - by rewrite deref_update_eq.
Qed.

(** ** [add_to_queue] and the parsers' [run] *)

Lemma within_run_refl st : within_run st st [].
Proof. split; [apply within_turn_refl|done]. Qed.

Lemma within_run_trans st1 st2 st3 evs1 evs2 :
  within_run st1 st2 evs1 -> within_run st2 st3 evs2 ->
  within_run st1 st3 (evs1 ++ evs2).
Proof.
  intros (H1 & Ha1 & Hr1 & He1 & Hc1) (H2 & Ha2 & Hr2 & He2 & Hc2).
  split; [by eapply within_turn_trans|].
  autorewrite with log. rewrite Ha1, Ha2, Hr1, Hr2, He1, He2, Hc2, Hc1. done.
Qed.

Lemma add_to_queue_trace fo st :
  exists evs, trace (add_to_queue fo st) = trace st ++ evs
    /\ queued evs = [fo] /\ popped evs = [] /\ asked evs = []
    /\ ran evs = [] /\ ended evs = [] /\ output_calls evs = [].
Proof.
  unfold add_to_queue. simpl.
  destruct (_current_file_object st); simpl.
  - eexists. rewrite <- app_assoc. simpl. split_and!; [reflexivity|done..].
  - eexists. split_and!; [reflexivity|done..].
Qed.

Lemma add_to_queue_fifo_buffer fo st :
  _fifo_buffer (add_to_queue fo st) = fo :: _fifo_buffer st.
Proof.
  unfold add_to_queue. simpl.
  destruct (_current_file_object st) eqn:E; simpl; by rewrite ?E.
Qed.

Lemma add_to_queue_current fo st :
  _current_file_object (add_to_queue fo st) = _current_file_object st.
Proof.
  unfold add_to_queue. simpl.
  destruct (_current_file_object st) eqn:E; simpl; by rewrite ?E.
Qed.

Lemma add_to_queue_objects fo st :
  objects (add_to_queue fo st) = alter (set_parent (_current_file_object st)) fo (objects st).
Proof.
  unfold add_to_queue. simpl.
  destruct (_current_file_object st) eqn:E; simpl; by rewrite ?E.
Qed.

(** A freshly created object that is queued. *)
Lemma extract_within_run child st :
  exists evs,
    within_run st (add_to_queue (allocate child st).1 (allocate child st).2) evs
    /\ output_calls evs = [].
Proof.
  set (r := (allocate child st).1). set (st1 := (allocate child st).2).
  destruct (add_to_queue_trace r st1) as (evs & Ht & Hq & Hp & Ha & Hr & He & Ho).
  exists evs. split; [|done]. split; [|split_and!; try done].
  - unfold within_turn, pending.
    rewrite Ht, Hq, Hp, add_to_queue_fifo_buffer, add_to_queue_objects.
    rewrite length_alter. subst r st1. simpl. rewrite length_app. simpl.
    split_and!; [done|done|done| |lia]. by repeat constructor.
  - by rewrite add_to_queue_current.
Qed.

Lemma perform_within_run acts e fo st :
  exists evs, within_run st (perform acts e fo st).1 evs.
Proof.
  revert st. induction acts as [|a acts IH]; intros st; simpl.
  - exists []. apply within_run_refl.
  - destruct a as [m|data name desc out| |k v].
    + destruct (IH (update fo (apply_mutation m) st)) as (evs & Hevs).
      exists ([] ++ evs). eapply within_run_trans; [|exact Hevs].
      split; [|done]. apply within_turn_unlogged; simpl; try done.
      apply length_alter.
    + destruct (FileObject_init data name desc out) as [child|].
      * destruct (extract_within_run child st) as (evs1 & H1 & _).
        simpl in *.
        destruct (IH (add_to_queue (length (objects st))
                        (with_objects (fun os => os ++ [child]) st)))
          as (evs2 & H2).
        exists (evs1 ++ evs2). by eapply within_run_trans.
      * exists []. apply within_run_refl.
    + destruct (output_within_run fo (log (OutputCalled fo) st)) as (evs1 & H1 & _).
      destruct (IH (output fo (log (OutputCalled fo) st))) as (evs2 & H2).
      exists (([OutputCalled fo] ++ evs1) ++ evs2).
      eapply within_run_trans; [|exact H2].
      eapply within_run_trans; [|exact H1].
      split; [|done]. by apply within_turn_silent.
    + destruct (IH (with_knowledge_base (<[k:=v]> (knowledge_base st)) st))
        as (evs & Hevs).
      exists ([] ++ evs). eapply within_run_trans; [|exact Hevs].
      split; [|done]. by apply within_turn_unlogged.
Qed.

Lemma construct_and_run_within p fo st :
  exists evs,
    within_turn st (construct_and_run p fo st).1 evs
    /\ asked evs = [] /\ ended evs = []
    /\ ran evs = (if truthy (DESCRIPTION p) then [(class_name p, fo)] else [])
    /\ _current_file_object (construct_and_run p fo st).1 = _current_file_object st
    /\ (truthy (DESCRIPTION p) = false ->
        construct_and_run p fo st = (st, RaisesException)).
Proof.
  unfold construct_and_run. destruct (truthy (DESCRIPTION p)).
  - destruct (run p (deref fo st) (knowledge_base st)) as [acts e].
    destruct (perform_within_run acts e fo (log (Ran (class_name p) fo) st))
      as (evs & Hturn & Ha & Hr & He & Hc).
    exists ([Ran (class_name p) fo] ++ evs). split_and!.
    + eapply within_turn_trans; [|exact Hturn]. by apply within_turn_silent.
    + by autorewrite with log; rewrite Ha.
    + by autorewrite with log; rewrite He.
    + by autorewrite with log; rewrite Hr.
    + by rewrite Hc.
    + done.
  - exists []. split_and!; try done. apply within_turn_refl.
Qed.

(** ** One pass of the body of the [for] loop *)

Lemma claim_within p fo st : within_turn st (claim p fo st) [].
Proof.
  unfold claim. apply within_turn_unlogged.
  - simpl. by destruct (truthy _).
  - simpl. by destruct (truthy _).
  - simpl. rewrite length_alter. destruct (truthy _); simpl; [done|].
    by rewrite length_alter.
Qed.

Lemma claim_current p fo st : _current_file_object (claim p fo st) = Some fo.
Proof. unfold claim. simpl. by destruct (truthy _). Qed.

Lemma attempt_within D p fo st :
  exists e evs,
    (attempt D p fo st).2 = control_after D e
    /\ within_turn st (attempt D p fo st).1 evs
    /\ asked evs = []
    /\ ended evs = [(class_name p, fo, e)]
    /\ ran evs = (if truthy (DESCRIPTION p) then [(class_name p, fo)] else [])
    /\ _current_file_object (attempt D p fo st).1 = Some fo.
Proof.
  unfold attempt.
  destruct (construct_and_run_within p fo (claim p fo st))
    as (evs & Hturn & Ha & He & Hr & Hc & _).
  destruct (construct_and_run p fo (claim p fo st)) as [st4 e]. cbn [fst snd] in *.
  pose proof (within_turn_trans _ _ _ _ _ (claim_within p fo st) Hturn) as Hturn'.
  cbn [app] in Hturn'. rewrite claim_current in Hc.
  exists e.
  destruct e; simpl.
  - exists (evs ++ [Ended (class_name p) fo Returns]). split_and!; try done.
    + eapply within_turn_trans; [exact Hturn'|]. by apply within_turn_silent.
    + by autorewrite with log; rewrite Ha.
    + by autorewrite with log; rewrite He.
    + by autorewrite with log; rewrite Hr, app_nil_r.
  - eexists (evs ++ [Ended (class_name p) fo RaisesUnableToParse; Debug _]).
    split_and!; try done.
    + eapply within_turn_trans; [exact Hturn'|]. apply within_turn_silent; try done.
      simpl. by rewrite <- app_assoc.
    + by autorewrite with log; rewrite Ha.
    + by autorewrite with log; rewrite He.
    + by autorewrite with log; rewrite Hr, app_nil_r.
  - eexists (evs ++ [Ended (class_name p) fo RaisesException; Debug _]).
    split_and!; try done.
    + eapply within_turn_trans; [exact Hturn'|]. apply within_turn_silent; try done.
      simpl. by rewrite <- app_assoc.
    + by autorewrite with log; rewrite Ha.
    + by autorewrite with log; rewrite He.
    + by autorewrite with log; rewrite Hr, app_nil_r.
Qed.

(** ** The [for] loop over the generator *)

(** Reasoning along the [for] loop of [dispatch] fed by [_identify_file]: the
    cases are the ways the generator and the loop body can go. *)
Lemma loop_ind D fo (P : list ParserClass -> bool -> State -> result -> Prop) :
  (forall st, P [] true st (Finished st)) ->
  (forall st, default D = None -> P [] false st (Finished (unidentified fo st))) ->
  (forall st d, default D = Some d ->
     P [] false st (Finished (attempt D d fo (unidentified fo st)).1)) ->
  (forall p rest idf st,
     identify p (deref fo st) = None -> P (p :: rest) idf st (Aborted st)) ->
  (forall p rest idf st muts r,
     identify p (deref fo st) = Some (muts, false) ->
     P rest idf (answered p fo muts false st) r -> P (p :: rest) idf st r) ->
  (forall p rest idf st muts,
     identify p (deref fo st) = Some (muts, true) ->
     (attempt D p fo (announced p fo (answered p fo muts true st))).2 = Break ->
     P (p :: rest) idf st
       (Finished (attempt D p fo (announced p fo (answered p fo muts true st))).1)) ->
  (forall p rest idf st muts r,
     identify p (deref fo st) = Some (muts, true) ->
     (attempt D p fo (announced p fo (answered p fo muts true st))).2 = Continue ->
     P rest true (attempt D p fo (announced p fo (answered p fo muts true st))).1 r ->
     P (p :: rest) idf st r) ->
  forall rest idf st, P rest idf st (for_each D fo (identify_from D rest idf fo st)).
Proof.
  intros Hstop Hnone Hdefault Hraise Hno Hbreak Hcontinue.
  induction rest as [|p rest IH]; intros idf st; simpl.
  - destruct idf; [apply Hstop|].
    destruct (default D) as [d|]; simpl; [|by apply Hnone].
    specialize (Hdefault st d eq_refl).
    by destruct (attempt D d fo (unidentified fo st)) as [st' []].
  - destruct (identify p (deref fo st)) as [[muts []]|] eqn:Hid; simpl.
    + specialize (Hbreak p rest idf st muts Hid).
      specialize (Hcontinue p rest idf st muts).
      destruct (attempt D p fo (announced p fo (answered p fo muts true st)))
        as [st' []]; simpl in *.
      * by apply Hcontinue.
      * by apply Hbreak.
    + by eapply Hno.
    + by apply Hraise.
Qed.

Lemma answered_within p fo muts b st :
  within_turn st (answered p fo muts b st) [Asked (class_name p) fo b].
Proof.
  apply within_turn_silent; try done. simpl. apply length_alter.
Qed.

Lemma announced_within p fo st : exists m, within_turn st (announced p fo st) [Debug m].
Proof. eexists. by apply within_turn_silent. Qed.

Lemma unidentified_within fo st :
  exists evs, within_turn st (unidentified fo st) evs
    /\ asked evs = [] /\ ended evs = [] /\ ran evs = []
    /\ _current_file_object (unidentified fo st) = _current_file_object st.
Proof.
  unfold unidentified. destruct (truthy _).
  - exists []. split_and!; try done. apply within_turn_refl.
  - eexists. split_and!; [by apply within_turn_silent|done..].
Qed.

(** The calls of one turn, other than the final [output()]. *)
Lemma loop_within D fo rest idf st :
  exists evs,
    within_turn st (state_of (for_each D fo (identify_from D rest idf fo st))) evs.
Proof.
  revert rest idf st. apply (loop_ind D fo
    (fun _ _ st r => exists evs, within_turn st (state_of r) evs)); simpl.
  - intros st. exists []. apply within_turn_refl.
  - intros st _. destruct (unidentified_within fo st) as (evs & H & _). eauto.
  - intros st d _.
    destruct (unidentified_within fo st) as (evs1 & H1 & _).
    destruct (attempt_within D d fo (unidentified fo st)) as (e & evs2 & _ & H2 & _).
    exists (evs1 ++ evs2). by eapply within_turn_trans.
  - intros _ _ _ st _. exists []. apply within_turn_refl.
  - intros p rest idf st muts r _ (evs & H).
    eexists. eapply within_turn_trans; [apply answered_within|exact H].
  - intros p rest idf st muts _ _.
    destruct (announced_within p fo (answered p fo muts true st)) as (m & Hm).
    destruct (attempt_within D p fo (announced p fo (answered p fo muts true st)))
      as (e & evs2 & _ & H2 & _).
    eexists. eapply within_turn_trans; [apply answered_within|].
    eapply within_turn_trans; [exact Hm|exact H2].
  - intros p rest idf st muts r _ _ (evs & H).
    destruct (announced_within p fo (answered p fo muts true st)) as (m & Hm).
    destruct (attempt_within D p fo (announced p fo (answered p fo muts true st)))
      as (e & evs2 & _ & H2 & _).
    eexists. eapply within_turn_trans; [apply answered_within|].
    eapply within_turn_trans; [exact Hm|].
    eapply within_turn_trans; [exact H2|exact H].
Qed.

(** When no [identify] raises, the loop runs to its end. *)
Lemma loop_finishes D fo rest idf st :
  (forall p o, p ∈ rest -> identify p o <> None) ->
  is_finished (for_each D fo (identify_from D rest idf fo st)) = true.
Proof.
  revert rest idf st. apply (loop_ind D fo
    (fun rest _ _ r =>
       (forall p o, p ∈ rest -> identify p o <> None) -> is_finished r = true));
    simpl; try done.
  - intros p rest _ st Hid Hall. exfalso. eapply Hall; [|exact Hid]. left.
  - intros p rest _ st muts r _ IH Hall. apply IH. intros q o Hq.
    apply Hall. by right.
  - intros p rest _ st muts r _ _ IH Hall. apply IH. intros q o Hq.
    apply Hall. by right.
Qed.

(** The dispatcher's current file object over the [for] loop: it becomes the
    file object of the loop as soon as a class is tried, and is not touched
    otherwise. *)
Lemma loop_current D fo rest idf st :
  let r := for_each D fo (identify_from D rest idf fo st) in
  exists evs,
    trace (state_of r) = trace st ++ evs
    /\ _current_file_object (state_of r) =
         match tried evs with
         | [] => _current_file_object st
         | _ :: _ => Some fo
         end.
Proof.
  revert rest idf st. apply (loop_ind D fo
    (fun _ _ st r => exists evs,
       trace (state_of r) = trace st ++ evs
       /\ _current_file_object (state_of r) =
            match tried evs with
            | [] => _current_file_object st
            | _ :: _ => Some fo
            end)); cbn [state_of].
  - intros st. exists []. by rewrite app_nil_r.
  - intros st _.
    destruct (unidentified_within fo st) as (evs & (Ht & _) & _ & He & _ & Hc).
    exists evs. by rewrite (tried_none _ He).
  - intros st d _.
    destruct (unidentified_within fo st) as (evs1 & (Ht1 & _) & _ & He1 & _ & Hc1).
    destruct (attempt_within D d fo (unidentified fo st))
      as (e & evs2 & _ & (Ht2 & _) & _ & He2 & _ & Hc2).
    exists (evs1 ++ evs2). read_log.
    rewrite Ht2, Ht1, (tried_none _ He1), (tried_one _ _ _ _ He2), Hc2.
    by rewrite <- app_assoc.
  - intros _ _ _ st _. exists []. by rewrite app_nil_r.
  - intros p rest idf st muts r _ (evs & Ht & Hc).
    exists (Asked (class_name p) fo false :: evs). read_log. split.
    + rewrite Ht. simpl. by rewrite <- app_assoc.
    + by rewrite Hc.
  - intros p rest idf st muts _ _.
    destruct (announced_within p fo (answered p fo muts true st)) as (m & Hm & _).
    destruct (attempt_within D p fo (announced p fo (answered p fo muts true st)))
      as (e & evs2 & _ & (Ht2 & _) & _ & He2 & _ & Hc2).
    exists (Asked (class_name p) fo true :: Debug m :: evs2). read_log. split.
    + rewrite Ht2, Hm. simpl. by rewrite <- !app_assoc.
    + by rewrite (tried_one _ _ _ _ He2), Hc2.
  - intros p rest idf st muts r _ _ (evs & Ht & Hc).
    destruct (announced_within p fo (answered p fo muts true st)) as (m & Hm & _).
    destruct (attempt_within D p fo (announced p fo (answered p fo muts true st)))
      as (e & evs2 & _ & (Ht2 & _) & _ & He2 & _ & Hc2).
    exists (Asked (class_name p) fo true :: Debug m :: evs2 ++ evs). read_log.
    split.
    + rewrite Ht, Ht2, Hm. simpl. by rewrite <- !app_assoc.
    + rewrite (tried_one _ _ _ _ He2), Hc, Hc2. simpl. by destruct (tried evs).
Qed.

(** Which classes are tried: those that answered [True], each right after
    its answer, or the default when the loop came to its end and none did.
    A class is run when it is tried, unless it has no [DESCRIPTION]. *)
Lemma loop_tried D fo rest idf st :
  let r := for_each D fo (identify_from D rest idf fo st) in
  exists evs,
    trace (state_of r) = trace st ++ evs
    /\ tried evs =
         match matched evs with
         | [] => if idf then [] else if is_finished r then default_entry D fo else []
         | ms => ms
         end
    /\ ran evs `sublist_of` tried evs
    /\ ((forall p, p ∈ rest -> truthy (DESCRIPTION p) = true) ->
        (forall d, default D = Some d -> truthy (DESCRIPTION d) = true) ->
        ran evs = tried evs).
Proof.
  revert rest idf st. apply (loop_ind D fo
    (fun rest idf st r => exists evs,
       trace (state_of r) = trace st ++ evs
       /\ tried evs =
            match matched evs with
            | [] => if idf then [] else if is_finished r then default_entry D fo else []
            | ms => ms
            end
       /\ ran evs `sublist_of` tried evs
       /\ ((forall p, p ∈ rest -> truthy (DESCRIPTION p) = true) ->
           (forall d, default D = Some d -> truthy (DESCRIPTION d) = true) ->
           ran evs = tried evs))); cbn [state_of is_finished].
  - intros st. exists []. by rewrite app_nil_r.
  - intros st Hd.
    destruct (unidentified_within fo st) as (evs & (Ht & _) & Ha & He & Hr & _).
    exists evs. unfold default_entry.
    rewrite (tried_none _ He), (matched_none _ Ha), Hr, Hd. done.
  - intros st d Hd.
    destruct (unidentified_within fo st) as (evs1 & (Ht1 & _) & Ha1 & He1 & Hr1 & _).
    destruct (attempt_within D d fo (unidentified fo st))
      as (e & evs2 & _ & (Ht2 & _) & Ha2 & He2 & Hr2 & _).
    exists (evs1 ++ evs2). unfold default_entry. read_log.
    rewrite Ht2, Ht1, (tried_none _ He1), (tried_one _ _ _ _ He2),
      (matched_none _ Ha1), (matched_none _ Ha2), Hr1, Hr2, Hd.
    cbn [app]. split_and!.
    + by rewrite <- app_assoc.
    + done.
    + destruct (truthy _); [done|]. apply sublist_nil_l.
    + intros _ Hdesc. by rewrite (Hdesc d eq_refl).
  - intros p rest idf st _. exists []. rewrite app_nil_r. by destruct idf.
  - intros p rest idf st muts r _ (evs & Ht & Htried & Hsub & Hran).
    exists (Asked (class_name p) fo false :: evs). read_log. split_and!.
    + rewrite Ht. simpl. by rewrite <- app_assoc.
    + done.
    + done.
    + intros Hall Hdesc. apply Hran; [|done]. intros q Hq. apply Hall. by right.
  - intros p rest idf st muts _ _.
    destruct (announced_within p fo (answered p fo muts true st)) as (m & Hm & _).
    destruct (attempt_within D p fo (announced p fo (answered p fo muts true st)))
      as (e & evs2 & _ & (Ht2 & _) & Ha2 & He2 & Hr2 & _).
    exists (Asked (class_name p) fo true :: Debug m :: evs2). read_log.
    rewrite (tried_one _ _ _ _ He2), (matched_none _ Ha2), Hr2.
    split_and!.
    + rewrite Ht2, Hm. simpl. by rewrite <- !app_assoc.
    + done.
    + destruct (truthy _); [done|]. apply sublist_nil_l.
    + intros Hall _. rewrite (Hall p); [done|left].
  - intros p rest idf st muts r _ _ (evs & Ht & Htried & Hsub & Hran).
    destruct (announced_within p fo (answered p fo muts true st)) as (m & Hm & _).
    destruct (attempt_within D p fo (announced p fo (answered p fo muts true st)))
      as (e & evs2 & _ & (Ht2 & _) & Ha2 & He2 & Hr2 & _).
    exists (Asked (class_name p) fo true :: Debug m :: evs2 ++ evs). read_log.
    rewrite (tried_one _ _ _ _ He2), (matched_none _ Ha2), Hr2.
    cbn [app]. split_and!.
    + rewrite Ht, Ht2, Hm. simpl. by rewrite <- !app_assoc.
    + rewrite Htried. by destruct (matched evs).
    + destruct (truthy _); cbn [app]; [by apply sublist_skip|by apply sublist_cons].
    + intros Hall Hdesc. rewrite (Hall p) by left. cbn [app]. f_equal.
      apply Hran; [|done]. intros q Hq. apply Hall. by right.
Qed.

(** Without [greedy], the loop goes on only past [UnableToParse]. *)
Lemma loop_nongreedy D fo rest idf st :
  greedy D = false ->
  exists evs,
    trace (state_of (for_each D fo (identify_from D rest idf fo st))) = trace st ++ evs
    /\ misidentified_but_last fo (ended evs).
Proof.
  intros Hgreedy. revert rest idf st. apply (loop_ind D fo
    (fun _ _ st r => exists evs,
       trace (state_of r) = trace st ++ evs
       /\ misidentified_but_last fo (ended evs))); cbn [state_of].
  - intros st. exists []. rewrite app_nil_r. split; [done|].
    exists [], []. simpl. split; [done|lia].
  - intros st _.
    destruct (unidentified_within fo st) as (evs & (Ht & _) & _ & He & _).
    exists evs. rewrite He. split; [done|]. exists [], []. simpl. split; [done|lia].
  - intros st d _.
    destruct (unidentified_within fo st) as (evs1 & (Ht1 & _) & _ & He1 & _).
    destruct (attempt_within D d fo (unidentified fo st))
      as (e & evs2 & _ & (Ht2 & _) & _ & He2 & _).
    exists (evs1 ++ evs2). read_log. rewrite Ht2, Ht1, He1, He2.
    split; [by rewrite <- app_assoc|]. exists [], [(class_name d, fo, e)].
    simpl. split; [done|lia].
  - intros _ _ _ st _. exists []. rewrite app_nil_r. split; [done|].
    exists [], []. simpl. split; [done|lia].
  - intros p rest idf st muts r _ (evs & Ht & Hshape).
    exists (Asked (class_name p) fo false :: evs). read_log. split; [|done].
    rewrite Ht. simpl. by rewrite <- app_assoc.
  - intros p rest idf st muts _ _.
    destruct (announced_within p fo (answered p fo muts true st)) as (m & Hm & _).
    destruct (attempt_within D p fo (announced p fo (answered p fo muts true st)))
      as (e & evs2 & _ & (Ht2 & _) & _ & He2 & _).
    exists (Asked (class_name p) fo true :: Debug m :: evs2).
    read_log. rewrite He2. split.
    + rewrite Ht2, Hm. simpl. by rewrite <- !app_assoc.
    + exists [], [(class_name p, fo, e)]. simpl. split; [done|lia].
  - intros p rest idf st muts r _ Hgo (evs & Ht & cs & last & Hended & Hlast).
    destruct (announced_within p fo (answered p fo muts true st)) as (m & Hm & _).
    destruct (attempt_within D p fo (announced p fo (answered p fo muts true st)))
      as (e & evs2 & Hctl & (Ht2 & _) & _ & He2 & _).
    assert (e = RaisesUnableToParse) as ->.
    { rewrite Hctl in Hgo. unfold control_after in Hgo. rewrite Hgreedy in Hgo.
      by destruct e. }
    exists (Asked (class_name p) fo true :: Debug m :: evs2 ++ evs).
    read_log. rewrite He2, Hended. split.
    + rewrite Ht, Ht2, Hm. simpl. by rewrite <- !app_assoc.
    + exists (class_name p :: cs), last. by split.
Qed.

(** With [greedy] and no [identify] that raises, every class is asked, in the
    order of [parsers]. *)
Lemma loop_greedy_asks_all D fo rest idf st :
  greedy D = true ->
  (forall p o, p ∈ rest -> identify p o <> None) ->
  exists evs,
    trace (state_of (for_each D fo (identify_from D rest idf fo st))) = trace st ++ evs
    /\ (fun a => a.1) <$> asked evs = (fun p => (class_name p, fo)) <$> rest.
Proof.
  intros Hgreedy. revert rest idf st. apply (loop_ind D fo
    (fun rest _ st r =>
       (forall p o, p ∈ rest -> identify p o <> None) ->
       exists evs,
         trace (state_of r) = trace st ++ evs
         /\ (fun a => a.1) <$> asked evs = (fun p => (class_name p, fo)) <$> rest));
    cbn [state_of].
  - intros st _. exists []. by rewrite app_nil_r.
  - intros st _ _.
    destruct (unidentified_within fo st) as (evs & (Ht & _) & Ha & _).
    exists evs. by rewrite Ha.
  - intros st d _ _.
    destruct (unidentified_within fo st) as (evs1 & (Ht1 & _) & Ha1 & _).
    destruct (attempt_within D d fo (unidentified fo st))
      as (e & evs2 & _ & (Ht2 & _) & Ha2 & _).
    exists (evs1 ++ evs2). read_log. rewrite Ht2, Ht1, Ha1, Ha2.
    by rewrite <- app_assoc.
  - intros p rest _ st Hid Hall. exfalso. eapply Hall; [|exact Hid]. left.
  - intros p rest idf st muts r _ IH Hall.
    destruct IH as (evs & Ht & Hasked).
    { intros q o Hq. apply Hall. by right. }
    exists (Asked (class_name p) fo false :: evs). read_log. split.
    + rewrite Ht. simpl. by rewrite <- app_assoc.
    + rewrite fmap_cons. by rewrite Hasked.
  - intros p rest idf st muts _ Hbreak _. exfalso.
    destruct (attempt_within D p fo (announced p fo (answered p fo muts true st)))
      as (e & evs2 & Hctl & _).
    rewrite Hctl in Hbreak. unfold control_after in Hbreak.
    rewrite Hgreedy in Hbreak. by destruct e.
  - intros p rest idf st muts r _ _ IH Hall.
    destruct IH as (evs & Ht & Hasked).
    { intros q o Hq. apply Hall. by right. }
    destruct (announced_within p fo (answered p fo muts true st)) as (m & Hm & _).
    destruct (attempt_within D p fo (announced p fo (answered p fo muts true st)))
      as (e & evs2 & _ & (Ht2 & _) & Ha2 & _).
    exists (Asked (class_name p) fo true :: Debug m :: evs2 ++ evs).
    read_log. rewrite Ha2. split.
    + rewrite Ht, Ht2, Hm. simpl. by rewrite <- !app_assoc.
    + cbn [app]. rewrite fmap_cons. by rewrite Hasked.
Qed.

(** ** The generator when every class declines *)

Lemma identify_from_declined D fo rest st o' :
  fo < length (objects st) ->
  declined_by rest (deref fo st) = Some o' ->
  let g := identify_from D rest false fo st in
  yielded g = match default D with Some d => [d] | None => [] end
  /\ deref fo (exhausted g) = o'
  /\ trace (exhausted g) =
       trace st ++ ((fun p => Asked (class_name p) fo false) <$> rest)
         ++ (if truthy (description o') then []
             else [Debug (NotIdentified (file_name o'))]).
Proof.
  revert st. induction rest as [|p rest IH]; intros st Hlt Hdecl; simpl in *.
  - injection Hdecl as <-. unfold unidentified.
    destruct (default D) as [d|], (truthy (description (deref fo st)));
      simpl; by rewrite ?app_nil_r.
  - destruct (identify p (deref fo st)) as [[muts []]|]; try done.
    destruct (IH (answered p fo muts false st)) as (Hy & Hd & Ht).
    + unfold answered. simpl. by rewrite length_alter.
    + unfold answered, deref. simpl.
      by rewrite list_lookup_total_alter_eq.
    + split_and!; [done..|]. rewrite Ht. simpl. by rewrite <- app_assoc.
Qed.

(** C1 (as amended).  When every class of [parsers] answers [False] for a
    file object, [_identify_file] yields the default class as its only
    element if a default is configured, whether or not the file object has a
    description, and yields nothing if none is configured.  The description
    only decides whether the "was not identified" line goes to the debug
    log. *)
Theorem identify_file_yields_default D fo st o' :
  fo < length (objects st) ->
  declined_by (parsers D) (deref fo st) = Some o' ->
  yielded (_identify_file D fo st) =
    match default D with Some d => [d] | None => [] end
  /\ deref fo (exhausted (_identify_file D fo st)) = o'
  /\ trace (exhausted (_identify_file D fo st)) =
       trace st ++ ((fun p => Asked (class_name p) fo false) <$> parsers D)
         ++ (if truthy (description o') then []
             else [Debug (NotIdentified (file_name o'))]).
Proof. apply identify_from_declined. Qed.

(** ** A class that raises [UnableToParse] *)

Lemma identify_from_yes D p rest idf fo st muts :
  identify p (deref fo st) = Some (muts, true) ->
  identify_from D (p :: rest) idf fo st =
    Yield (announced p fo (answered p fo muts true st)) p
          (fun st' => identify_from D rest true fo st').
Proof. intros Hid. simpl. by rewrite Hid. Qed.

Lemma for_each_yield D fo st p resume :
  for_each D fo (Yield st p resume) =
    match attempt D p fo st with
    | (st', Break) => Finished st'
    | (st', Continue) => for_each D fo (resume st')
    end.
Proof. done. Qed.

Lemma claim_description p fo st :
  fo < length (objects st) ->
  description (deref fo (claim p fo st)) =
    if truthy (description (deref fo st)) then description (deref fo st)
    else DESCRIPTION p.
Proof.
  intros Hlt. unfold claim, deref. simpl.
  destruct (truthy (description (objects st !!! fo))) eqn:Htruthy; simpl.
  - by rewrite list_lookup_total_alter_eq.
  - rewrite !list_lookup_total_alter_eq; [done..|]. by rewrite length_alter.
Qed.

Lemma output_description fo fo' st :
  description (deref fo' (output fo st)) = description (deref fo' st).
Proof.
  unfold output.
  destruct (output_file _ && negb _); [destruct (bool_decide _)|]; try done.
  unfold deref, update. simpl.
  destruct (decide (fo = fo')) as [<-|Hne];
    [|by rewrite list_lookup_total_alter_ne].
  rewrite !list_lookup_total_alt, list_lookup_alter_eq.
  by destruct (objects st !! fo).
Qed.

Lemma perform_description acts e fo st :
  fo < length (objects st) ->
  keeps_description acts ->
  description (deref fo (perform acts e fo st).1) = description (deref fo st).
Proof.
  revert st. induction acts as [|a acts IH]; intros st Hlt Hkeep; [done|].
  apply Forall_cons in Hkeep as [Ha Hkeep]. simpl.
  destruct a as [[n|d]|data name desc out| |k v]; try done.
  - rewrite IH; [|by rewrite length_objects_update|done].
    by rewrite deref_update_eq.
  - destruct (FileObject_init data name desc out) as [child|]; [|done]. simpl.
    rewrite IH; [| |done].
    + unfold deref. rewrite add_to_queue_objects. simpl.
      rewrite list_lookup_total_alter_ne by lia.
      by rewrite lookup_total_app_l.
    + rewrite add_to_queue_objects, length_alter. simpl.
      rewrite length_app. lia.
  - rewrite IH; [|by destruct (output_within_run fo (log (OutputCalled fo) st))
                      as (? & [(_ & _ & _ & _ & Hlen) _] & _); simpl in Hlen; lia|done].
    by rewrite output_description.
  - by rewrite IH.
Qed.

Lemma construct_and_run_description p fo st :
  fo < length (objects st) ->
  keeps_description (run p (deref fo st) (knowledge_base st)).1 ->
  description (deref fo (construct_and_run p fo st).1) = description (deref fo st).
Proof.
  intros Hlt Hkeep. unfold construct_and_run.
  destruct (truthy (DESCRIPTION p)); [|done].
  destruct (run p (deref fo st) (knowledge_base st)) as [acts e].
  by rewrite perform_description.
Qed.


(** ** One turn of the [while] loop *)

Lemma process_within D fo st :
  exists evs, within_turn st (state_of (process D fo st)) evs.
Proof.
  unfold process.
  destruct (loop_within D fo (parsers D) false st) as (evs & Hevs).
  fold (_identify_file D fo st) in Hevs.
  destruct (for_each D fo (_identify_file D fo st)) as [st'|st'|st']; simpl in *;
    [|by eauto..].
  destruct (output_within_run fo (log (OutputCalled fo) st')) as (evs2 & [H2 _] & _).
  eexists. eapply within_turn_trans; [exact Hevs|].
  eapply within_turn_trans; [|exact H2].
  by apply (within_turn_silent st' _ [OutputCalled fo]).
Qed.

(** When no [identify] raises, the turn ends with the call of [output()] on
    the state the [for] loop left. *)
Lemma process_finishes D fo st :
  (forall p o, p ∈ parsers D -> identify p o <> None) ->
  let st1 := state_of (for_each D fo (_identify_file D fo st)) in
  process D fo st = Finished (output fo (log (OutputCalled fo) st1))
  /\ exists evs evs',
      within_turn st st1 evs
      /\ within_turn st (output fo (log (OutputCalled fo) st1))
           (evs ++ [OutputCalled fo] ++ evs').
Proof.
  intros Hall. unfold process.
  pose proof (loop_finishes D fo (parsers D) false st Hall) as Hfin.
  destruct (loop_within D fo (parsers D) false st) as (evs & Hevs).
  fold (_identify_file D fo st) in Hfin, Hevs.
  destruct (for_each D fo (_identify_file D fo st)) as [st'|st'|st']; try done.
  cbn [state_of] in *. split; [done|].
  destruct (output_within_run fo (log (OutputCalled fo) st')) as (evs2 & [H2 _] & _).
  exists evs, evs2. split; [done|].
  eapply within_turn_trans; [exact Hevs|].
  eapply within_turn_trans; [|exact H2].
  by apply (within_turn_silent st' _ [OutputCalled fo]).
Qed.

(** What [process] logs after the [for] loop. *)
Lemma process_log D fo st :
  let r := for_each D fo (_identify_file D fo st) in
  exists evs,
    trace (state_of (process D fo st)) = trace (state_of r) ++ evs
    /\ asked evs = [] /\ ran evs = [] /\ ended evs = []
    /\ is_finished (process D fo st) = is_finished r.
Proof.
  unfold process.
  destruct (for_each D fo (_identify_file D fo st)) as [st'|st'|st'];
    cbn [state_of is_finished];
    [|by exists []; rewrite app_nil_r..].
  destruct (output_within_run fo (log (OutputCalled fo) st'))
    as (evs2 & [(Ht2 & _) (Ha2 & Hr2 & He2 & _)] & _).
  exists (OutputCalled fo :: evs2). read_log. rewrite Ht2. simpl.
  by rewrite <- app_assoc.
Qed.

(** C2 (as amended).  Without [greedy], of the classes tried on a file object
    in its turn at most one ends otherwise than by [UnableToParse], and it is
    the last one tried: every class tried before it raised [UnableToParse].
    The classes whose [run] is entered are among the classes tried. *)
Theorem nongreedy_stops_at_first_claim D :
  greedy D = false ->
  forall fo st, exists evs,
    trace (state_of (process D fo st)) = trace st ++ evs
    /\ misidentified_but_last fo (ended evs)
    /\ ran evs `sublist_of` tried evs.
Proof.
  intros Hgreedy fo st.
  destruct (process_log D fo st) as (evs2 & Ht2 & Ha2 & Hr2 & He2 & _).
  destruct (loop_nongreedy D fo (parsers D) false st Hgreedy) as (evs & Ht & Hshape).
  destruct (loop_tried D fo (parsers D) false st) as (evs' & Ht' & _ & Hsub & _).
  fold (_identify_file D fo st) in Ht, Ht'.
  assert (evs' = evs) as -> by (rewrite Ht in Ht'; by apply app_inv_head in Ht').
  exists (evs ++ evs2). read_log.
  rewrite Ht2, Ht, He2, Hr2, (tried_none _ He2), !app_nil_r.
  split_and!; [by rewrite <- app_assoc|done..].
Qed.


(** ** The [while] loop *)

Lemma pop_pending st :
  pop (_fifo_buffer st) =
    match pending st with
    | [] => None
    | fo :: l => Some (fo, rev l)
    end.
Proof. done. Qed.

Lemma pending_after_pop fo l st :
  pending (log (Popped fo) (with_fifo_buffer (rev l) st)) = l.
Proof. unfold pending. simpl. apply rev_involutive. Qed.

(** C6.  The queue is first in, first out: over any number of turns of
    [dispatch], the file objects popped, in the order of popping, followed by
    those still pending are the file objects pending at the start followed by
    those queued since, in the order of queuing.  So of two pending objects
    the one queued first is popped first, and what a parser queues while a
    file object is processed goes behind everything queued before (breadth
    first): within a turn nothing is popped and the queued objects are
    appended; [add_to_queue] appends, [pop] takes the head. *)
Theorem dispatch_first_in_first_out D turns st :
  (exists evs,
     trace (state_of (dispatch D turns st)) = trace st ++ evs
     /\ popped evs ++ pending (state_of (dispatch D turns st)) =
        pending st ++ queued evs
     /\ popped evs `prefix_of` pending st ++ queued evs)
  /\ (forall fo, exists evs,
        trace (state_of (process D fo st)) = trace st ++ evs
        /\ popped evs = []
        /\ pending (state_of (process D fo st)) = pending st ++ queued evs)
  /\ (forall fo, pending (add_to_queue fo st) = pending st ++ [fo])
  /\ pop (_fifo_buffer st) =
       match pending st with
       | [] => None
       | fo :: l => Some (fo, rev l)
       end.
Proof.
  split_and!.
  - cut (exists evs,
           trace (state_of (dispatch D turns st)) = trace st ++ evs
           /\ popped evs ++ pending (state_of (dispatch D turns st)) =
              pending st ++ queued evs).
    { intros (evs & Ht & Hq). exists evs. split_and!; [done..|].
      exists (pending (state_of (dispatch D turns st))). by rewrite Hq. }
    revert st. induction turns as [|turns IH]; intros st; simpl;
      rewrite pop_pending; destruct (pending st) as [|fo l] eqn:Hpending.
    + exists []. simpl. by rewrite !app_nil_r.
    + exists []. simpl. by rewrite !app_nil_r.
    + exists []. simpl. by rewrite !app_nil_r.
    + set (st0 := log (Popped fo) (with_fifo_buffer (rev l) st)).
      destruct (process_within D fo st0) as (evs1 & Ht1 & Hp1 & Hq1 & _).
      assert (Hst0 : pending st0 = l) by apply pending_after_pop.
      destruct (process D fo st0) as [st1|st1|st1] eqn:Hproc; cbn [state_of] in *.
      * destruct (IH st1) as (evs2 & Ht2 & Hq2).
        exists (Popped fo :: evs1 ++ evs2). read_log.
        rewrite Ht2, Ht1, Hp1. simpl. rewrite Hq2, Hq1, Hst0.
        by rewrite <- !app_assoc.
      * exists (Popped fo :: evs1). read_log.
        rewrite Ht1, Hp1, Hq1, Hst0. simpl. by rewrite <- !app_assoc.
      * exists (Popped fo :: evs1). read_log.
        rewrite Ht1, Hp1, Hq1, Hst0. simpl. by rewrite <- !app_assoc.
  - intros fo. destruct (process_within D fo st) as (evs & Ht & Hp & Hq & _).
    by exists evs.
  - intros fo. unfold pending. by rewrite add_to_queue_fifo_buffer.
  - apply pop_pending.
Qed.

Lemma dispatch_never_aborts D turns st :
  (forall p o, p ∈ parsers D -> identify p o <> None) ->
  is_aborted (dispatch D turns st) = false.
Proof.
  intros Hall. revert st. induction turns as [|turns IH]; intros st; simpl;
    destruct (pop (_fifo_buffer st)) as [[fo q]|]; try done.
  destruct (process_finishes D fo (log (Popped fo) (with_fifo_buffer q st)) Hall)
    as (-> & _). apply IH.
Qed.

Lemma dispatch_drains D l :
  (forall p o, p ∈ parsers D -> identify p o <> None) ->
  forall st more, pending st = l ++ more ->
  exists evs,
    trace (state_of (dispatch D (length l) st)) = trace st ++ evs
    /\ popped evs = l
    /\ (forall fo, fo ∈ l -> fo ∈ output_calls evs).
Proof.
  intros Hall. induction l as [|a l IH]; intros st more Hpending; simpl.
  - exists []. rewrite app_nil_r. split_and!; [|done|by intros fo ?%elem_of_nil].
    by destruct (pop (_fifo_buffer st)) as [[??]|].
  - rewrite pop_pending, Hpending. simpl.
    set (st0 := log (Popped a) (with_fifo_buffer (rev (l ++ more)) st)).
    assert (Hst0 : pending st0 = l ++ more) by apply pending_after_pop.
    destruct (process_finishes D a st0 Hall)
      as (-> & evs1 & evs1' & _ & Ht1 & Hp1 & Hq1 & _).
    rewrite Hst0, <- app_assoc in Hq1.
    destruct (IH _ _ Hq1) as (evs2 & Ht2 & Hp2 & Ho2).
    exists ([Popped a] ++ (evs1 ++ [OutputCalled a] ++ evs1') ++ evs2).
    split_and!.
    + rewrite Ht2, Ht1. simpl. by rewrite <- !app_assoc.
    + rewrite !popped_app in *. rewrite Hp1, Hp2. done.
    + intros fo Hfo. autorewrite with log. simpl.
      apply elem_of_cons in Hfo as [->|Hfo].
      * apply elem_of_app. left. apply elem_of_app. right. left.
      * apply elem_of_app. right. by apply Ho2.
Qed.

Lemma dispatch_finished_empty D turns st :
  is_finished (dispatch D turns st) = true ->
  pending (state_of (dispatch D turns st)) = [].
Proof.
  revert st. induction turns as [|turns IH]; intros st; simpl;
    rewrite pop_pending; destruct (pending st) as [|fo l] eqn:Hpending;
    try done.
  destruct (process D fo (log (Popped fo) (with_fifo_buffer (rev l) st)));
    try done. apply IH.
Qed.


Lemma process_current D fo st :
  exists evs,
    trace (state_of (process D fo st)) = trace st ++ evs
    /\ _current_file_object (state_of (process D fo st)) =
         match tried evs with
         | [] => _current_file_object st
         | _ :: _ => Some fo
         end.
Proof.
  unfold process.
  destruct (loop_current D fo (parsers D) false st) as (evs & Ht & Hc).
  fold (_identify_file D fo st) in Ht, Hc.
  destruct (for_each D fo (_identify_file D fo st)) as [st'|st'|st'];
    cbn [state_of] in *; [|by eauto..].
  destruct (output_within_run fo (log (OutputCalled fo) st'))
    as (evs2 & [(Ht2 & _) (_ & _ & He2 & Hc2)] & _).
  exists (evs ++ OutputCalled fo :: evs2). split.
  - rewrite Ht2. simpl. rewrite Ht. by rewrite <- !app_assoc.
  - read_log. rewrite (tried_none _ He2), Hc2, app_nil_r. done.
Qed.

Lemma dispatch_keeps_current D turns st :
  is_Some (_current_file_object st) ->
  is_Some (_current_file_object (state_of (dispatch D turns st))).
Proof.
  revert st. induction turns as [|turns IH]; intros st Hsome; simpl;
    destruct (pop (_fifo_buffer st)) as [[fo q]|]; try done.
  set (st0 := log (Popped fo) (with_fifo_buffer q st)).
  destruct (process_current D fo st0) as (evs & _ & Hc).
  assert (Hst1 : is_Some (_current_file_object (state_of (process D fo st0)))).
  { rewrite Hc. by destruct (tried evs). }
  destruct (process D fo st0) as [st1|st1|st1]; cbn [state_of] in *; auto.
Qed.

(** C4 (as amended).  [add_to_queue] sets the parent of the file object it
    is given to the dispatcher's current file object, which is [None] on a
    new dispatcher.  The current file object is set to the file object of a
    turn when a class is tried on it; it is not reset when the [for] loop of
    the turn is over, and once set it is never [None] again.  So a file
    object queued before any class was tried (the seed of a new dispatcher)
    gets no parent, and one queued later gets the file object on which a
    class was tried last. *)
Theorem add_to_queue_parent_is_current D :
  (forall fo st, fo < length (objects st) ->
     parent (deref fo (add_to_queue fo st)) = _current_file_object st)
  /\ _current_file_object Dispatcher_init = None
  /\ (forall fo st, exists evs,
        trace (state_of (process D fo st)) = trace st ++ evs
        /\ _current_file_object (state_of (process D fo st)) =
             match tried evs with
             | [] => _current_file_object st
             | _ :: _ => Some fo
             end)
  /\ (forall turns st,
        is_Some (_current_file_object st) ->
        is_Some (_current_file_object (state_of (dispatch D turns st)))).
Proof.
  split_and!; [|done|apply process_current|apply dispatch_keeps_current].
  intros fo st Hlt. unfold deref. rewrite add_to_queue_objects.
  by rewrite list_lookup_total_alter_eq.
Qed.

(** ** Parents come before their children *)

Lemma well_parented_same st st' :
  objects st' = objects st ->
  _fifo_buffer st' = _fifo_buffer st ->
  _current_file_object st' = _current_file_object st ->
  well_parented st -> well_parented st'.
Proof. unfold well_parented. by intros -> -> ->. Qed.

Lemma well_parented_update fo f st :
  (forall o, parent (f o) = parent o) ->
  well_parented st -> well_parented (update fo f st).
Proof.
  intros Hf (Hcur & Hqueue & Hparents). unfold well_parented, update. simpl.
  rewrite length_alter. split_and!; [done..|].
  intros i o p Hi Hp. rewrite list_lookup_alter in Hi.
  destruct (decide (fo = i)) as [->|Hne]; [|by eapply Hparents].
  destruct (objects st !! i) as [o0|] eqn:Ho0; [|done].
  simpl in Hi. injection Hi as <-. rewrite Hf in Hp. by eapply Hparents.
Qed.

Lemma well_parented_output fo st :
  well_parented st -> well_parented (output fo st).
Proof.
  intros Hwf. unfold output.
  destruct (output_file _ && negb _); [destruct (bool_decide _)|]; try done.
  apply well_parented_update; [done|].
  by apply (well_parented_same st).
Qed.

Lemma FileObject_init_parent data name desc out child :
  FileObject_init data name desc out = Some child -> parent child = None.
Proof.
  unfold FileObject_init. destruct (String.eqb name EmptyString); [done|].
  by intros [= <-].
Qed.

Lemma well_parented_extract child st :
  parent child = None ->
  well_parented st ->
  well_parented (add_to_queue (allocate child st).1 (allocate child st).2).
Proof.
  intros Hchild (Hcur & Hqueue & Hparents). unfold well_parented.
  rewrite add_to_queue_current, add_to_queue_fifo_buffer, add_to_queue_objects.
  simpl. rewrite length_alter, length_app. simpl. split_and!.
  - intros c Hc. specialize (Hcur c Hc). lia.
  - constructor; [lia|]. eapply Forall_impl; [exact Hqueue|]. simpl. intros; lia.
  - intros i o p Hi Hp. rewrite list_lookup_alter in Hi.
    destruct (decide (length (objects st) = i)) as [<-|Hne].
    + rewrite lookup_app_r, Nat.sub_diag in Hi by lia. simpl in Hi.
      injection Hi as <-. simpl in Hp. by apply Hcur.
    + apply lookup_app_Some in Hi as [Hi|[Hge Hi]]; [by eapply Hparents|].
      destruct (i - length (objects st)) as [|k] eqn:Hk; [lia|done].
Qed.

Lemma well_parented_perform acts e fo st :
  well_parented st -> well_parented (perform acts e fo st).1.
Proof.
  revert st. induction acts as [|a acts IH]; intros st Hwf; [done|]. simpl.
  destruct a as [m|data name desc out| |k v].
  - apply IH, well_parented_update; [by destruct m|done].
  - destruct (FileObject_init data name desc out) as [child|] eqn:Hchild; [|done].
    apply IH. apply (well_parented_extract child st); [|done].
    by eapply FileObject_init_parent.
  - apply IH, well_parented_output. by apply (well_parented_same st).
  - apply IH. by apply (well_parented_same st).
Qed.

Lemma well_parented_attempt D p fo st :
  fo < length (objects st) ->
  well_parented st -> well_parented (attempt D p fo st).1.
Proof.
  intros Hlt Hwf.
  assert (Hclaim : well_parented (claim p fo st)).
  { unfold claim. apply well_parented_update; [done|].
    destruct Hwf as (Hcur & Hqueue & Hparents).
    destruct (truthy _).
    - unfold well_parented. simpl. split_and!; [|done..]. by intros c [= <-].
    - apply well_parented_update; [done|].
      unfold well_parented. simpl. split_and!; [|done..]. by intros c [= <-]. }
  assert (Hrun : well_parented (construct_and_run p fo (claim p fo st)).1).
  { unfold construct_and_run. destruct (truthy (DESCRIPTION p)); [|done].
    destruct (run p _ _) as [acts e].
    apply well_parented_perform. by apply (well_parented_same (claim p fo st)). }
  unfold attempt.
  destruct (construct_and_run p fo (claim p fo st)) as [st4 []]; simpl in *;
    by apply (well_parented_same st4).
Qed.

Lemma mutations_keep_parent muts o :
  parent (foldl (flip apply_mutation) o muts) = parent o.
Proof.
  revert o. induction muts as [|m muts IH]; intros o; simpl; [done|].
  rewrite IH. by destruct m.
Qed.

Lemma well_parented_answered p fo muts b st :
  well_parented st -> well_parented (answered p fo muts b st).
Proof.
  intros Hwf. unfold answered.
  eapply well_parented_same;
    [| | |apply (well_parented_update fo
                   (fun o => foldl (flip apply_mutation) o muts) st);
          [apply mutations_keep_parent|exact Hwf]]; done.
Qed.

Lemma well_parented_announced p fo st :
  well_parented st -> well_parented (announced p fo st).
Proof. by apply well_parented_same. Qed.

Lemma well_parented_unidentified fo st :
  well_parented st -> well_parented (unidentified fo st).
Proof.
  intros Hwf. unfold unidentified. destruct (truthy _); [done|].
  by apply (well_parented_same st).
Qed.

Lemma well_parented_loop D fo rest idf st :
  fo < length (objects st) ->
  well_parented st ->
  well_parented (state_of (for_each D fo (identify_from D rest idf fo st))).
Proof.
  revert rest idf st. apply (loop_ind D fo
    (fun _ _ st r =>
       fo < length (objects st) -> well_parented st -> well_parented (state_of r)));
    cbn [state_of].
  - done.
  - intros st _ _ Hwf. by apply well_parented_unidentified.
  - intros st d _ Hlt Hwf. apply well_parented_attempt.
    + unfold unidentified. by destruct (truthy _).
    + by apply well_parented_unidentified.
  - done.
  - intros p rest idf st muts r _ IH Hlt Hwf. apply IH.
    + unfold answered. simpl. by rewrite length_alter.
    + by apply well_parented_answered.
  - intros p rest idf st muts _ _ Hlt Hwf. apply well_parented_attempt.
    + unfold announced, answered. simpl. by rewrite length_alter.
    + by apply well_parented_announced, well_parented_answered.
  - intros p rest idf st muts r _ _ IH Hlt Hwf.
    set (yield_st := announced p fo (answered p fo muts true st)) in *.
    assert (Hlen : length (objects yield_st) = length (objects st)).
    { subst yield_st. unfold announced, answered. simpl. apply length_alter. }
    apply IH.
    + destruct (attempt_within D p fo yield_st)
        as (e & evs & _ & (_ & _ & _ & _ & Hl) & _). lia.
    + apply well_parented_attempt; [lia|].
      by apply well_parented_announced, well_parented_answered.
Qed.

Lemma well_parented_process D fo st :
  fo < length (objects st) ->
  well_parented st -> well_parented (state_of (process D fo st)).
Proof.
  intros Hlt Hwf. unfold process.
  pose proof (well_parented_loop D fo (parsers D) false st Hlt Hwf) as Hloop.
  fold (_identify_file D fo st) in Hloop.
  destruct (for_each D fo (_identify_file D fo st)) as [st'|st'|st'];
    cbn [state_of] in *; [|done..].
  apply well_parented_output. by apply (well_parented_same st').
Qed.

Lemma well_parented_dispatch D turns st :
  well_parented st -> well_parented (state_of (dispatch D turns st)).
Proof.
  revert st. induction turns as [|turns IH]; intros st Hwf; simpl;
    destruct (pop (_fifo_buffer st)) as [[fo q]|] eqn:Hpop; try done.
  assert (Hpopped : fo < length (objects st)
                    /\ Forall (fun x => x < length (objects st)) q).
  { destruct Hwf as (_ & Hqueue & _). unfold pop in Hpop.
    destruct (rev (_fifo_buffer st)) as [|x r] eqn:Hrev; [done|].
    injection Hpop as -> <-.
    apply Forall_rev in Hqueue. rewrite Hrev in Hqueue.
    apply Forall_cons in Hqueue as [Hx Hr]. split; [done|].
    by apply Forall_rev. }
  destruct Hpopped as [Hfo Hq].
  set (st0 := log (Popped fo) (with_fifo_buffer q st)).
  assert (Hwf0 : well_parented st0).
  { destruct Hwf as (Hcur & _ & Hparents). by split_and!. }
  pose proof (well_parented_process D fo st0 Hfo Hwf0) as Hproc.
  destruct (process D fo st0) as [st1|st1|st1]; cbn [state_of] in *; auto.
Qed.

(** Where parents come before their children, every object has a depth. *)
Lemma well_parented_depth st i o :
  well_parented st -> objects st !! i = Some o ->
  exists n, depth_in (objects st) o n.
Proof.
  intros (_ & _ & Hparents). revert o.
  induction i as [i IH] using lt_wf_ind. intros o Hi.
  destruct (parent o) as [p|] eqn:Hp; [|exists 0; by constructor].
  pose proof (Hparents i o p Hi Hp) as Hlt.
  assert (Hpo : is_Some (objects st !! p)).
  { apply lookup_lt_is_Some. apply lookup_lt_Some in Hi. lia. }
  destruct Hpo as [po Hpo].
  destruct (IH p Hlt po Hpo) as [n Hn].
  exists (S n). eapply depth_child; [exact Hp|].
  by rewrite (list_lookup_total_correct _ _ _ Hpo).
Qed.

(** In every state [dispatch] reaches from a new dispatcher whose seed was
    created and queued, every file object has a depth, so that
    [parser_history] is defined on it. *)
Lemma dispatched_objects_have_depth D data name turns i o :
  objects (state_of (Dispatcher_run D data name turns Dispatcher_init)) !! i = Some o ->
  exists n, depth_in (objects (state_of (Dispatcher_run D data name turns Dispatcher_init))) o n.
Proof.
  apply well_parented_depth. unfold Dispatcher_run.
  destruct (FileObject_init data name None false) as [input_file|] eqn:Hinit.
  - simpl. apply well_parented_dispatch.
    apply (well_parented_extract input_file (debug ParsingStarted Dispatcher_init)).
    + by eapply FileObject_init_parent.
    + by split_and!.
  - simpl. by split_and!.
Qed.

(** ** [FileObject.parser_history] *)

Lemma history_loop_lineage os o n :
  depth_in os o n ->
  exists l, lineage os o l /\ length l = S n /\
    forall fuel acc, n <= fuel ->
      history_loop fuel os (acc ++ [parser o]) (parent o) = Some (acc ++ rev l).
Proof.
  induction 1 as [o Hroot | o p n Hpar Hdepth (l & Hlin & Hlen & Hloop)].
  - exists [parser o]. split_and!; [by constructor | done |].
    intros fuel acc _. rewrite Hroot. by destruct fuel.
  - exists (l ++ [parser o]). split_and!.
    + by econstructor.
    + rewrite length_app. simpl. lia.
    + intros fuel acc Hfuel. rewrite Hpar.
      destruct fuel as [|fuel]; [lia|]. simpl.
      rewrite Hloop by lia. rewrite rev_app_distr. simpl.
      by rewrite <- app_assoc.
Qed.

(** C3 (as amended).  [parser_history] gives the parser entries along the
    parent links from the object without parent down to the object itself,
    the object's own entry included (an entry is [None] where no parser was
    set): its length is the depth of the object plus one, so 1 for the seed. *)
Theorem parser_history_depth os o n :
  depth_in os o n ->
  exists l, lineage os o l /\ length l = S n /\
    forall fuel, n <= fuel -> parser_history fuel os o = Some l.
Proof.
  intros Hdepth.
  destruct (history_loop_lineage os o n Hdepth) as (l & Hlin & Hlen & Hloop).
  exists l. split_and!; [done..|].
  intros fuel Hfuel. unfold parser_history.
  specialize (Hloop fuel [] Hfuel). simpl in Hloop.
  rewrite Hloop. by rewrite rev_involutive.
Qed.

End Properties.

(** * More of the dispatcher *)

Section Further.
Context {reporter : Reporter}.
Implicit Types (st : State) (fo : ref) (o : FileObject) (D : Dispatcher).

#[local] Arguments queued : simpl never.
#[local] Arguments popped : simpl never.
#[local] Arguments asked : simpl never.
#[local] Arguments matched : simpl never.
#[local] Arguments ran : simpl never.
#[local] Arguments ended : simpl never.
#[local] Arguments tried : simpl never.
#[local] Arguments output_calls : simpl never.
#[local] Arguments sink_calls : simpl never.

Create Rewrite HintDb calls.
Hint Rewrite queued_app popped_app asked_app matched_app ran_app ended_app
  tried_app output_calls_app sink_calls_app
  queued_cons popped_cons asked_cons matched_cons ran_cons ended_cons
  tried_cons output_calls_cons sink_calls_cons : calls.

Ltac read_log := autorewrite with calls; cbn [queued_of popped_of asked_of
  matched_of ran_of ended_of tried_of output_calls_of sink_calls_of app].

(** ** Everything is made of elementary steps *)

Lemma steps_log e st : sink_calls_of e = [] -> rtc elementary st (log e st).
Proof. intros H. by apply rtc_once, el_log. Qed.

Lemma steps_output fo st : rtc elementary st (output fo st).
Proof.
  unfold output.
  destruct (output_file (deref fo st)) eqn:Hout; [|done].
  destruct (_outputted_file (deref fo st)) eqn:Hdone; [done|]. simpl.
  destruct (bool_decide _) eqn:Hname; [done|].
  apply bool_decide_eq_false in Hname. by apply rtc_once, el_emit.
Qed.

Lemma steps_perform acts e fo st : rtc elementary st (perform acts e fo st).1.
Proof.
  revert st. induction acts as [|a acts IH]; intros st; [done|]. simpl.
  destruct a as [m|data name desc out| |k v].
  - eapply rtc_l; [apply el_mutate|apply IH].
  - destruct (FileObject_init data name desc out) as [child|] eqn:Hchild; [|done].
    eapply rtc_l; [by eapply el_extract|apply IH].
  - eapply rtc_l; [by apply (el_log (OutputCalled fo))|].
    eapply rtc_trans; [apply steps_output|apply IH].
  - eapply rtc_l; [apply el_learn|apply IH].
Qed.

Lemma steps_construct_and_run p fo st :
  rtc elementary st (construct_and_run p fo st).1.
Proof.
  unfold construct_and_run. destruct (truthy (DESCRIPTION p)); [|done].
  destruct (run p (deref fo st) (knowledge_base st)) as [acts e].
  eapply rtc_l; [by apply (el_log (Ran (class_name p) fo))|apply steps_perform].
Qed.

Lemma steps_claim p fo st : rtc elementary st (claim p fo st).
Proof.
  unfold claim.
  eapply rtc_l; [apply (el_current (Some fo) (Some (class_name p)))|].
  destruct (truthy _).
  - apply rtc_once, el_set_parser.
  - eapply rtc_l; [apply (el_mutate fo (SetDescription (DESCRIPTION p)))|].
    apply rtc_once, el_set_parser.
Qed.

Lemma steps_attempt D p fo st : rtc elementary st (attempt D p fo st).1.
Proof.
  unfold attempt.
  pose proof (steps_construct_and_run p fo (claim p fo st)) as Hrun.
  destruct (construct_and_run p fo (claim p fo st)) as [st4 e]. simpl in Hrun.
  eapply rtc_trans; [apply steps_claim|].
  eapply rtc_trans; [exact Hrun|].
  eapply rtc_l; [by apply (el_log (Ended (class_name p) fo e))|].
  destruct e; simpl; [done|by apply steps_log..].
Qed.

Lemma alter_twice {A} (f g : A -> A) (l : list A) i :
  alter g i (alter f i l) = alter (fun x => g (f x)) i l.
Proof.
  revert i. induction l as [|x l IH]; intros [|i]; simpl; try done.
  f_equal. apply IH.
Qed.

Lemma steps_mutations fo muts st :
  rtc elementary st (update fo (fun o => foldl (flip apply_mutation) o muts) st).
Proof.
  revert st. induction muts as [|m muts IH]; intros st.
  - unfold update, with_objects. simpl.
    rewrite list_alter_id by done. by destruct st.
  - eapply rtc_l; [apply (el_mutate fo m)|].
    specialize (IH (update fo (apply_mutation m) st)).
    unfold update, with_objects in *. simpl in *.
    by rewrite alter_twice in IH.
Qed.

Lemma steps_answered p fo muts b st : rtc elementary st (answered p fo muts b st).
Proof.
  unfold answered.
  eapply rtc_trans; [apply steps_mutations|]. by apply steps_log.
Qed.

Lemma steps_announced p fo st : rtc elementary st (announced p fo st).
Proof. by apply steps_log. Qed.

Lemma steps_unidentified fo st : rtc elementary st (unidentified fo st).
Proof. unfold unidentified. destruct (truthy _); [done|]. by apply steps_log. Qed.

Lemma steps_loop D fo rest idf st :
  rtc elementary st (state_of (for_each D fo (identify_from D rest idf fo st))).
Proof.
  revert rest idf st. apply (loop_ind D fo
    (fun _ _ st r => rtc elementary st (state_of r))); cbn [state_of].
  - done.
  - intros st _. apply steps_unidentified.
  - intros st d _.
    eapply rtc_trans; [apply steps_unidentified|apply steps_attempt].
  - done.
  - intros p rest idf st muts r _ IH.
    eapply rtc_trans; [apply steps_answered|exact IH].
  - intros p rest idf st muts _ _.
    eapply rtc_trans; [apply (steps_answered p fo muts true)|].
    eapply rtc_trans; [apply (steps_announced p fo)|apply steps_attempt].
  - intros p rest idf st muts r _ _ IH.
    eapply rtc_trans; [apply (steps_answered p fo muts true)|].
    eapply rtc_trans; [apply (steps_announced p fo)|].
    eapply rtc_trans; [apply steps_attempt|exact IH].
Qed.

Lemma steps_process D fo st : rtc elementary st (state_of (process D fo st)).
Proof.
  unfold process.
  pose proof (steps_loop D fo (parsers D) false st) as Hloop.
  fold (_identify_file D fo st) in Hloop.
  destruct (for_each D fo (_identify_file D fo st)) as [st'|st'|st'];
    cbn [state_of] in *; [|done..].
  eapply rtc_trans; [exact Hloop|].
  eapply rtc_l; [by apply (el_log (OutputCalled fo))|apply steps_output].
Qed.

Lemma steps_dispatch D turns st :
  rtc elementary st (state_of (dispatch D turns st)).
Proof.
  revert st. induction turns as [|turns IH]; intros st; simpl;
    destruct (pop (_fifo_buffer st)) as [[fo q]|]; try done.
  set (st0 := log (Popped fo) (with_fifo_buffer q st)).
  assert (H0 : rtc elementary st st0).
  { eapply rtc_l; [apply (el_fifo_buffer q)|]. by apply steps_log. }
  pose proof (steps_process D fo st0) as Hproc.
  destruct (process D fo st0) as [st1|st1|st1]; cbn [state_of] in *.
  - eapply rtc_trans; [exact H0|].
    eapply rtc_trans; [exact Hproc|apply IH].
  - by eapply rtc_trans.
  - by eapply rtc_trans.
Qed.

Lemma steps_Dispatcher_run D data name turns st :
  rtc elementary st (state_of (Dispatcher_run D data name turns st)).
Proof.
  unfold Dispatcher_run.
  destruct (FileObject_init data name None false) as [input_file|] eqn:Hinit;
    simpl.
  - eapply rtc_l; [by apply (el_log (Debug ParsingStarted))|].
    eapply rtc_l; [by eapply el_extract|apply steps_dispatch].
  - by apply steps_log.
Qed.

Lemma add_to_queue_knowledge_base fo st :
  knowledge_base (add_to_queue fo st) = knowledge_base st.
Proof. unfold add_to_queue. simpl. by destruct (_current_file_object st). Qed.

(** ** What no step changes *)

Lemma keeps_objects_refl st : keeps_objects st st.
Proof. intros r o Hr. exists o. by repeat split. Qed.

Lemma keeps_objects_trans st1 st2 st3 :
  keeps_objects st1 st2 -> keeps_objects st2 st3 -> keeps_objects st1 st3.
Proof.
  intros H12 H23 r o Hr.
  destruct (H12 r o Hr) as (o2 & Hr2 & (Hd2 & Hf2 & Hp2) & Ho2 & Hu2).
  destruct (H23 r o2 Hr2) as (o3 & Hr3 & (Hd3 & Hf3 & Hp3) & Ho3 & Hu3).
  exists o3. split; [done|]. split; [|split].
  - repeat split; congruence.
  - auto.
  - intros Hflag. rewrite Hu3 by congruence. auto.
Qed.

Lemma keeps_objects_same st st' :
  objects st' = objects st -> keeps_objects st st'.
Proof. intros Heq r o Hr. exists o. rewrite Heq. by repeat split. Qed.

Lemma keeps_objects_alter (f : FileObject -> FileObject) fo st st' :
  objects st' = alter f fo (objects st) ->
  (forall o, same_origin o (f o)
             /\ _outputted_file (f o) = _outputted_file o) ->
  keeps_objects st st'.
Proof.
  intros Heq Hf r o Hr. rewrite Heq, list_lookup_alter.
  destruct (decide (fo = r)) as [->|Hne]; [|exists o; by repeat split].
  rewrite Hr. simpl. exists (f o). destruct (Hf o) as [Hsame Hflag].
  split_and!; [done..| |]; by rewrite Hflag.
Qed.

Lemma elementary_keeps_objects st st' :
  elementary st st' -> keeps_objects st st'.
Proof.
  intros Hstep. destruct Hstep; try (by apply keeps_objects_same).
  - eapply keeps_objects_alter; [done|]. intros o. by destruct m.
  - by eapply keeps_objects_alter.
  - intros r o Hr. exists o. split; [|by repeat split].
    rewrite add_to_queue_objects. simpl.
    pose proof (lookup_lt_Some _ _ _ Hr) as Hlt.
    rewrite list_lookup_alter_ne by lia. by rewrite lookup_app_l.
  - intros r o Hr. unfold update. simpl. rewrite list_lookup_alter.
    destruct (decide (self = r)) as [->|Hne]; [|exists o; by repeat split].
    rewrite Hr. simpl. eexists. split; [done|].
    unfold deref in H. rewrite (list_lookup_total_correct _ _ _ Hr) in H.
    repeat split; try done. intros Hflag. congruence.
Qed.

Lemma steps_keep_objects st st' : rtc elementary st st' -> keeps_objects st st'.
Proof.
  induction 1 as [|st1 st2 st3 Hstep _ IH]; [apply keeps_objects_refl|].
  eapply keeps_objects_trans; [by apply elementary_keeps_objects|exact IH].
Qed.

Lemma elementary_outputted_wanted st st' :
  elementary st st' -> outputted_wanted st -> outputted_wanted st'.
Proof.
  intros Hstep Hinv. destruct Hstep; try done.
  - intros r o. unfold update. simpl. rewrite list_lookup_alter.
    destruct (decide (fo = r)) as [->|Hne]; [|apply Hinv].
    destruct (objects st !! r) as [o0|] eqn:Hr; [|done]. simpl.
    intros [= <-]. destruct m; apply (Hinv r o0 Hr).
  - intros r o. unfold update. simpl. rewrite list_lookup_alter.
    destruct (decide (fo = r)) as [->|Hne]; [|apply Hinv].
    destruct (objects st !! r) as [o0|] eqn:Hr; [|done]. simpl.
    intros [= <-]. apply (Hinv r o0 Hr).
  - intros r o. rewrite add_to_queue_objects. simpl. rewrite list_lookup_alter.
    destruct (decide (length (objects st) = r)) as [<-|Hne].
    + rewrite lookup_app_r, Nat.sub_diag by lia. simpl. intros [= <-]. simpl.
      unfold FileObject_init in H. destruct (String.eqb name EmptyString); [done|].
      injection H as <-. done.
    + intros Hr. apply lookup_app_Some in Hr as [Hr|[Hge Hr]]; [by eapply Hinv|].
      destruct (r - length (objects st)) as [|k] eqn:Hk; [lia|done].
  - intros r o. unfold update. simpl. rewrite list_lookup_alter.
    destruct (decide (self = r)) as [->|Hne]; [|apply Hinv].
    destruct (objects st !! r) as [o0|] eqn:Hr; [|done]. simpl.
    intros [= <-] _. simpl.
    unfold deref in H. by rewrite (list_lookup_total_correct _ _ _ Hr) in H.
Qed.

Lemma steps_outputted_wanted st st' :
  rtc elementary st st' -> outputted_wanted st -> outputted_wanted st'.
Proof.
  induction 1 as [|st1 st2 st3 Hstep _ IH]; [done|].
  intros Hinv. by apply IH, (elementary_outputted_wanted st1).
Qed.

(** ** File names handed to the reporter *)

Lemma fresh_names_refl st : fresh_names st st.
Proof.
  exists []. rewrite app_nil_r. split_and!; [done..|constructor|].
  by intros n ?%elem_of_nil.
Qed.

Lemma sink_names_app evs1 evs2 :
  sink_names (evs1 ++ evs2) = sink_names evs1 ++ sink_names evs2.
Proof. unfold sink_names. by rewrite sink_calls_app, fmap_app. Qed.

Lemma fresh_names_trans st1 st2 st3 :
  fresh_names st1 st2 -> fresh_names st2 st3 -> fresh_names st1 st3.
Proof.
  intros (evs1 & Ht1 & Hm1 & Hn1 & Hf1) (evs2 & Ht2 & Hm2 & Hn2 & Hf2).
  exists (evs1 ++ evs2). rewrite sink_names_app. split_and!.
  - by rewrite Ht2, Ht1, app_assoc.
  - auto.
  - apply NoDup_app. split_and!; [done| |done].
    intros n Hin1 Hin2. destruct (Hf1 n Hin1) as [_ Hhas].
    destruct (Hf2 n Hin2) as [Hnot _]. done.
  - intros n [Hin|Hin]%elem_of_app.
    + destruct (Hf1 n Hin). auto.
    + destruct (Hf2 n Hin) as [Hnot Hhas]. split; [|done].
      intros Hold. apply Hnot. auto.
Qed.

Lemma fresh_names_unlogged st st' evs :
  trace st' = trace st ++ evs -> sink_calls evs = [] ->
  outputfiles st' = outputfiles st -> fresh_names st st'.
Proof.
  intros Ht Hs Ho. exists evs. unfold sink_names. rewrite Hs, Ho. simpl.
  split_and!; [done..|constructor|]. by intros n ?%elem_of_nil.
Qed.

Lemma add_to_queue_sink fo st :
  exists evs, trace (add_to_queue fo st) = trace st ++ evs
    /\ sink_calls evs = []
    /\ outputfiles (add_to_queue fo st) = outputfiles st.
Proof.
  unfold add_to_queue. simpl.
  destruct (_current_file_object st); simpl.
  - eexists. rewrite <- app_assoc. simpl. split_and!; [reflexivity|done..].
  - eexists. split_and!; [reflexivity|done..].
Qed.

Lemma elementary_fresh_names st st' :
  records_names -> elementary st st' -> fresh_names st st'.
Proof.
  intros Hrec Hstep. destruct Hstep.
  - by apply (fresh_names_unlogged _ _ [e]); [|rewrite sink_calls_cons, H|].
  - apply (fresh_names_unlogged _ _ []); [by rewrite app_nil_r|done..].
  - apply (fresh_names_unlogged _ _ []); [by rewrite app_nil_r|done..].
  - apply (fresh_names_unlogged _ _ []); [by rewrite app_nil_r|done..].
  - apply (fresh_names_unlogged _ _ []); [by rewrite app_nil_r|done..].
  - apply (fresh_names_unlogged _ _ []); [by rewrite app_nil_r|done..].
  - destruct (add_to_queue_sink (allocate child st).1 (allocate child st).2)
      as (evs & Ht & Hs & Ho).
    by apply (fresh_names_unlogged _ _ evs).
  - set (o := deref self st) in *.
    destruct (Hrec (outputfiles st) (file_data o) (file_name o)
                (or_empty (description o))) as [Hnew Hold].
    exists [OutputFile (file_data o) (file_name o) (or_empty (description o))].
    split_and!; [done|exact Hold|by apply NoDup_singleton|].
    intros n ->%list_elem_of_singleton. done.
Qed.

Lemma steps_fresh_names st st' :
  records_names -> rtc elementary st st' -> fresh_names st st'.
Proof.
  intros Hrec. induction 1 as [|st1 st2 st3 Hstep _ IH]; [apply fresh_names_refl|].
  eapply fresh_names_trans; [by apply elementary_fresh_names|exact IH].
Qed.

(** ** The knowledge base *)

Lemma steps_keep_knowledge st st' k :
  rtc elementary st st' ->
  is_Some (knowledge_base st !! k) -> is_Some (knowledge_base st' !! k).
Proof.
  induction 1 as [|st1 st2 st3 Hstep _ IH]; [done|].
  intros Hk. apply IH. destruct Hstep; try done.
  - simpl. rewrite lookup_insert. by case_decide.
  - by rewrite add_to_queue_knowledge_base.
Qed.

(** ** [dispatch] as a whole *)


(** X2.  Only file objects that are to be output are ever marked as
    outputted: if that holds of the store when [dispatch] starts, it holds
    whenever it stops, also of the objects created in between. *)
Theorem dispatch_marks_only_wanted D turns st :
  outputted_wanted st -> outputted_wanted (state_of (dispatch D turns st)).
Proof. apply steps_outputted_wanted, steps_dispatch. Qed.

(** X3.  With a reporter that enters the names it is given into
    [outputfiles], [dispatch] hands no file name to [reporter.output_file]
    twice, and none that the reporter had before. *)
Theorem dispatch_outputs_each_name_once D turns st :
  records_names ->
  exists evs,
    trace (state_of (dispatch D turns st)) = trace st ++ evs
    /\ NoDup (sink_names evs)
    /\ (forall n, n ∈ sink_names evs -> n ∉ outputfiles st).
Proof.
  intros Hrec.
  destruct (steps_fresh_names _ _ Hrec (steps_dispatch D turns st))
    as (evs & Ht & _ & Hnodup & Hfresh).
  exists evs. split_and!; [done..|]. intros n Hn. by destruct (Hfresh n Hn).
Qed.



(** ** Which classes are tried *)

(** X6.  With or without [greedy], the classes tried on the file object of a
    turn are the classes that answered [True], in the order in which they
    were asked; the default class is tried only when the loop came to its
    end and no class had answered [True], so not when a class that matched
    raised [UnableToParse].  A [run] is only entered for a class tried. *)
Theorem process_tries_matches_or_default D fo st :
  exists evs,
    trace (state_of (process D fo st)) = trace st ++ evs
    /\ tried evs =
         match matched evs with
         | [] => if is_finished (process D fo st) then default_entry D fo else []
         | ms => ms
         end
    /\ matched evs = (fun a => a.1) <$> filter (fun a => a.2 = true) (asked evs)
    /\ ran evs `sublist_of` tried evs.
Proof.
  destruct (process_log D fo st) as (evs2 & Ht2 & Ha2 & Hr2 & He2 & Hfin).
  destruct (loop_tried D fo (parsers D) false st) as (evs & Ht & Htried & Hsub & _).
  fold (_identify_file D fo st) in Ht, Htried.
  exists (evs ++ evs2). split_and!.
  - by rewrite Ht2, Ht, app_assoc.
  - rewrite tried_app, matched_app, (tried_none _ He2), (matched_none _ Ha2),
      !app_nil_r, Hfin. done.
  - apply matched_asked.
  - by rewrite ran_app, tried_app, Hr2, (tried_none _ He2), !app_nil_r.
Qed.

(** Without [greedy], the class asked last is the class that ended otherwise
    than by [UnableToParse], unless that was the default class. *)
Lemma loop_asks_no_further D fo rest idf st :
  greedy D = false ->
  exists evs,
    trace (state_of (for_each D fo (identify_from D rest idf fo st))) = trace st ++ evs
    /\ (forall c e,
          last (ended evs) = Some (c, fo, e) -> e <> RaisesUnableToParse ->
          last (asked evs) = Some (c, fo, true)
          \/ (idf = false /\ matched evs = [])).
Proof.
  intros Hgreedy. revert rest idf st. apply (loop_ind D fo
    (fun _ idf st r => exists evs,
       trace (state_of r) = trace st ++ evs
       /\ (forall c e,
             last (ended evs) = Some (c, fo, e) -> e <> RaisesUnableToParse ->
             last (asked evs) = Some (c, fo, true)
             \/ (idf = false /\ matched evs = [])))); cbn [state_of].
  - intros st. exists []. rewrite app_nil_r. split; [done|].
    intros c e Hl. discriminate Hl.
  - intros st _.
    destruct (unidentified_within fo st) as (evs & (Ht & _) & _ & He & _).
    exists evs. rewrite He. split; [done|]. intros c e Hl. discriminate Hl.
  - intros st d _.
    destruct (unidentified_within fo st) as (evs1 & (Ht1 & _) & Ha1 & _).
    destruct (attempt_within D d fo (unidentified fo st))
      as (e & evs2 & _ & (Ht2 & _) & Ha2 & _).
    exists (evs1 ++ evs2). split; [by rewrite Ht2, Ht1, <- app_assoc|].
    intros c e' _ _. right. split; [done|].
    by rewrite matched_app, (matched_none _ Ha1), (matched_none _ Ha2).
  - intros p rest idf st _. exists []. rewrite app_nil_r. split; [done|].
    intros c e Hl. discriminate Hl.
  - intros p rest idf st muts r _ (evs & Ht & Hlast).
    exists (Asked (class_name p) fo false :: evs). read_log. split.
    + rewrite Ht. simpl. by rewrite <- app_assoc.
    + intros c e Hend Hne. destruct (Hlast c e Hend Hne) as [Hasked|[-> Hnone]].
      * left. rewrite last_cons, Hasked. done.
      * by right.
  - intros p rest idf st muts _ _.
    destruct (announced_within p fo (answered p fo muts true st)) as (m & Hm & _).
    destruct (attempt_within D p fo (announced p fo (answered p fo muts true st)))
      as (e & evs2 & _ & (Ht2 & _) & Ha2 & He2 & _).
    exists (Asked (class_name p) fo true :: Debug m :: evs2). read_log.
    rewrite He2, Ha2. split.
    + rewrite Ht2, Hm. simpl. by rewrite <- !app_assoc.
    + intros c e' [= <- <-] _. by left.
  - intros p rest idf st muts r _ Hgo (evs & Ht & Hlast).
    destruct (announced_within p fo (answered p fo muts true st)) as (m & Hm & _).
    destruct (attempt_within D p fo (announced p fo (answered p fo muts true st)))
      as (e & evs2 & Hctl & (Ht2 & _) & Ha2 & He2 & _).
    assert (e = RaisesUnableToParse) as ->.
    { rewrite Hctl in Hgo. unfold control_after in Hgo. rewrite Hgreedy in Hgo.
      by destruct e. }
    exists (Asked (class_name p) fo true :: Debug m :: evs2 ++ evs). read_log.
    rewrite He2, Ha2. cbn [app]. split.
    + rewrite Ht, Ht2, Hm. simpl. by rewrite <- !app_assoc.
    + intros c e. rewrite !last_cons.
      destruct (last (ended evs)) as [x|] eqn:Hx; [|by intros [= <- <-]].
      intros [= ->] Hne. destruct (Hlast c e eq_refl Hne) as [Hasked|[? _]]; [|done].
      left. by rewrite Hasked.
Qed.

(** X7.  Without [greedy], once a class of [parsers] has ended otherwise than
    by [UnableToParse], no further class is asked: in the log of the turn,
    the last [identify] is the one of that class. *)
Theorem nongreedy_asks_no_further D fo st :
  greedy D = false ->
  exists evs,
    trace (state_of (process D fo st)) = trace st ++ evs
    /\ (forall c e,
          last (ended evs) = Some (c, fo, e) -> e <> RaisesUnableToParse ->
          matched evs <> [] ->
          last (asked evs) = Some (c, fo, true)).
Proof.
  intros Hgreedy.
  destruct (process_log D fo st) as (evs2 & Ht2 & Ha2 & Hr2 & He2 & _).
  destruct (loop_asks_no_further D fo (parsers D) false st Hgreedy)
    as (evs & Ht & Hlast).
  fold (_identify_file D fo st) in Ht.
  exists (evs ++ evs2). read_log.
  rewrite Ht2, Ht, Ha2, He2, (matched_none _ Ha2), !app_nil_r.
  split; [by rewrite <- app_assoc|].
  intros c e Hend Hne Hmatched.
  by destruct (Hlast c e Hend Hne) as [?|[_ ?]].
Qed.

(** ** The default class is not asked *)

Lemma loop_ignores_default_identify D d f fo rest idf st :
  default D = Some d ->
  for_each (with_default (Some (with_identify f d)) D) fo
    (identify_from (with_default (Some (with_identify f d)) D) rest idf fo st) =
  for_each D fo (identify_from D rest idf fo st).
Proof.
  intros Hd. revert idf st.
  induction rest as [|p rest IH]; intros idf st; simpl.
  - destruct idf; [done|]. by rewrite Hd.
  - destruct (identify p (deref fo st)) as [[muts []]|]; [|apply IH|done].
    simpl.
    change (attempt (with_default (Some (with_identify f d)) D) p fo)
      with (attempt D p fo).
    destruct (attempt D p fo _) as [st' []]; [apply IH|done].
Qed.

(** X8.  The [identify] of the default class is never called: a dispatcher
    whose default class has another [identify], even one that raises or
    answers [False], dispatches in the same way. *)
Theorem default_identify_is_never_called D d f turns st :
  default D = Some d ->
  dispatch (with_default (Some (with_identify f d)) D) turns st =
    dispatch D turns st.
Proof.
  intros Hd. revert st. induction turns as [|turns IH]; intros st; simpl;
    destruct (pop (_fifo_buffer st)) as [[fo q]|]; try done.
  unfold process, _identify_file.
  change (parsers (with_default (Some (with_identify f d)) D)) with (parsers D).
  rewrite (loop_ignores_default_identify D d f fo (parsers D) false _ Hd).
  destruct (for_each D fo _); [apply IH|done..].
Qed.

Lemma mutations_keep_parser muts o :
  parser (foldl (flip apply_mutation) o muts) = parser o.
Proof.
  revert o. induction muts as [|m muts IH]; intros o; simpl; [done|].
  rewrite IH. by destruct m.
Qed.

(** ** What a turn leaves on its file object *)

Lemma output_deref fo fo' st :
  deref fo' (output fo st) = deref fo' st
  \/ deref fo' (output fo st) = set_outputted_file true (deref fo' st).
Proof.
  unfold output.
  destruct (output_file _ && negb _); [destruct (bool_decide _)|]; try by left.
  unfold deref, update. simpl.
  destruct (decide (fo = fo')) as [<-|Hne];
    [|left; by rewrite list_lookup_total_alter_ne].
  rewrite !list_lookup_total_alt, list_lookup_alter_eq.
  destruct (objects st !! fo); simpl; [by right|by left].
Qed.

Lemma claim_parser p fo st :
  fo < length (objects st) ->
  parser (deref fo (claim p fo st)) = Some (class_name p).
Proof.
  intros Hlt. unfold claim, deref. simpl.
  rewrite list_lookup_total_alter_eq; [done|].
  destruct (truthy _); simpl; [done|]. by rewrite length_alter.
Qed.

Lemma claim_file_name p fo st :
  file_name (deref fo (claim p fo st)) = file_name (deref fo st).
Proof.
  unfold claim, deref. simpl.
  rewrite !list_lookup_total_alt, list_lookup_alter_eq.
  destruct (truthy _); simpl.
  - by destruct (objects st !! fo).
  - rewrite list_lookup_alter_eq. by destruct (objects st !! fo).
Qed.

Lemma perform_parser acts e fo st :
  fo < length (objects st) ->
  parser (deref fo (perform acts e fo st).1) = parser (deref fo st).
Proof.
  revert st. induction acts as [|a acts IH]; intros st Hlt; [done|]. simpl.
  destruct a as [m|data name desc out| |k v].
  - rewrite IH by (by rewrite length_objects_update).
    rewrite deref_update_eq by done. by destruct m.
  - destruct (FileObject_init data name desc out) as [child|]; [|done]. simpl.
    rewrite IH.
    + unfold deref. rewrite add_to_queue_objects. simpl.
      rewrite list_lookup_total_alter_ne by lia.
      by rewrite lookup_total_app_l.
    + rewrite add_to_queue_objects, length_alter. simpl.
      rewrite length_app. lia.
  - rewrite IH.
    + by destruct (output_deref fo fo (log (OutputCalled fo) st)) as [->| ->].
    + destruct (output_within_run fo (log (OutputCalled fo) st))
        as (? & [(_ & _ & _ & _ & Hlen) _] & _). simpl in Hlen. lia.
  - by rewrite IH.
Qed.

Lemma attempt_parser D p fo st :
  fo < length (objects st) ->
  parser (deref fo (attempt D p fo st).1) = Some (class_name p).
Proof.
  intros Hlt.
  assert (Hrun : parser (deref fo (construct_and_run p fo (claim p fo st)).1) =
                 Some (class_name p)).
  { unfold construct_and_run. destruct (truthy (DESCRIPTION p));
      [|by apply claim_parser].
    destruct (run p _ _) as [acts e].
    rewrite perform_parser.
    - by apply claim_parser.
    - destruct (claim_within p fo st) as (_ & _ & _ & _ & Hl).
      change (fo < length (objects (claim p fo st))). lia. }
  unfold attempt.
  destruct (construct_and_run p fo (claim p fo st)) as [st4 []]; exact Hrun.
Qed.

Lemma answered_parser p fo muts b st :
  parser (deref fo (answered p fo muts b st)) = parser (deref fo st).
Proof.
  unfold answered, deref. simpl.
  rewrite !list_lookup_total_alt, list_lookup_alter_eq.
  destruct (objects st !! fo); simpl; [|done]. apply mutations_keep_parser.
Qed.

Lemma loop_parser D fo rest idf st :
  fo < length (objects st) ->
  let r := for_each D fo (identify_from D rest idf fo st) in
  exists evs,
    trace (state_of r) = trace st ++ evs
    /\ parser (deref fo (state_of r)) =
         match last (tried evs) with
         | Some (c, _) => Some c
         | None => parser (deref fo st)
         end.
Proof.
  revert rest idf st. apply (loop_ind D fo
    (fun _ _ st r =>
       fo < length (objects st) ->
       exists evs,
         trace (state_of r) = trace st ++ evs
         /\ parser (deref fo (state_of r)) =
              match last (tried evs) with
              | Some (c, _) => Some c
              | None => parser (deref fo st)
              end)); cbn [state_of].
  - intros st _. exists []. by rewrite app_nil_r.
  - intros st _ _.
    destruct (unidentified_within fo st) as (evs & (Ht & _) & _ & He & _).
    exists evs. rewrite (tried_none _ He). split; [done|].
    unfold unidentified. by destruct (truthy _).
  - intros st d _ Hlt.
    destruct (unidentified_within fo st) as (evs1 & (Ht1 & _ & _ & _ & Hl1) & _ & He1 & _).
    destruct (attempt_within D d fo (unidentified fo st))
      as (e & evs2 & _ & (Ht2 & _) & _ & He2 & _).
    exists (evs1 ++ evs2).
    rewrite tried_app, (tried_none _ He1), (tried_one _ _ _ _ He2).
    split; [by rewrite Ht2, Ht1, <- app_assoc|].
    apply attempt_parser. lia.
  - intros _ _ _ st _ _. exists []. by rewrite app_nil_r.
  - intros p rest idf st muts r _ IH Hlt.
    destruct IH as (evs & Ht & Hp).
    { unfold answered. simpl. by rewrite length_alter. }
    exists (Asked (class_name p) fo false :: evs). read_log. split.
    + rewrite Ht. simpl. by rewrite <- app_assoc.
    + by rewrite Hp, answered_parser.
  - intros p rest idf st muts _ _ Hlt.
    destruct (announced_within p fo (answered p fo muts true st)) as (m & Hm & _).
    destruct (attempt_within D p fo (announced p fo (answered p fo muts true st)))
      as (e & evs2 & _ & (Ht2 & _) & _ & He2 & _).
    exists (Asked (class_name p) fo true :: Debug m :: evs2). read_log.
    rewrite (tried_one _ _ _ _ He2). split.
    + rewrite Ht2, Hm. simpl. by rewrite <- !app_assoc.
    + apply attempt_parser. unfold announced, answered. simpl.
      by rewrite length_alter.
  - intros p rest idf st muts r _ _ IH Hlt.
    set (yield_st := announced p fo (answered p fo muts true st)) in *.
    assert (Hlen : length (objects yield_st) = length (objects st)).
    { subst yield_st. unfold announced, answered. simpl. apply length_alter. }
    destruct (announced_within p fo (answered p fo muts true st)) as (m & Hm & _).
    destruct (attempt_within D p fo yield_st)
      as (e & evs2 & _ & (Ht2 & _ & _ & _ & Hl2) & _ & He2 & _).
    destruct IH as (evs & Ht & Hp); [lia|].
    exists (Asked (class_name p) fo true :: Debug m :: evs2 ++ evs). read_log.
    rewrite (tried_one _ _ _ _ He2). cbn [app]. split.
    + rewrite Ht, Ht2. fold yield_st in Hm. rewrite Hm. simpl.
      by rewrite <- !app_assoc.
    + rewrite Hp, last_cons. destruct (last (tried evs)) as [[c ?]|]; [done|].
      apply attempt_parser. lia.
Qed.

(** X9.  After the turn of a file object, its [parser] attribute names the
    class that was tried last in the turn, whatever the ending of that class;
    when no class was tried, the attribute is as before. *)
Theorem process_parser_is_last_tried D fo st :
  fo < length (objects st) ->
  exists evs,
    trace (state_of (process D fo st)) = trace st ++ evs
    /\ parser (deref fo (state_of (process D fo st))) =
         match last (tried evs) with
         | Some (c, _) => Some c
         | None => parser (deref fo st)
         end.
Proof.
  intros Hlt.
  destruct (loop_parser D fo (parsers D) false st Hlt) as (evs & Ht & Hp).
  fold (_identify_file D fo st) in Ht, Hp.
  unfold process.
  destruct (for_each D fo (_identify_file D fo st)) as [st'|st'|st'];
    cbn [state_of] in *; [|by exists evs..].
  destruct (output_within_run fo (log (OutputCalled fo) st'))
    as (evs2 & [(Ht2 & _) (_ & _ & He2 & _)] & _).
  exists (evs ++ OutputCalled fo :: evs2). read_log.
  rewrite (tried_none _ He2), app_nil_r. split.
  - rewrite Ht2. simpl. by rewrite Ht, <- !app_assoc.
  - rewrite <- Hp.
    by destruct (output_deref fo fo (log (OutputCalled fo) st')) as [->| ->].
Qed.

(** ** A file nobody identifies *)

Lemma loop_declined D fo rest st o' :
  fo < length (objects st) ->
  declined_by rest (deref fo st) = Some o' ->
  exists st1,
    for_each D fo (identify_from D rest false fo st) =
      match default D with
      | Some d => Finished (attempt D d fo st1).1
      | None => Finished st1
      end
    /\ deref fo st1 = o'
    /\ length (objects st1) = length (objects st).
Proof.
  revert st. induction rest as [|p rest IH]; intros st Hlt Hdecl; simpl in *.
  - injection Hdecl as <-. exists (unidentified fo st). split_and!.
    + destruct (default D) as [d|]; simpl; [|done].
      by destruct (attempt D d fo (unidentified fo st)) as [st' []].
    + unfold unidentified. by destruct (truthy _).
    + unfold unidentified. by destruct (truthy _).
  - destruct (identify p (deref fo st)) as [[muts []]|]; try done.
    destruct (IH (answered p fo muts false st)) as (st1 & Hloop & Hd & Hl).
    + unfold answered. simpl. by rewrite length_alter.
    + unfold answered, deref. simpl. by rewrite list_lookup_total_alter_eq.
    + exists st1. split_and!; [done..|].
      rewrite Hl. unfold answered. simpl. apply length_alter.
Qed.

(** X10.  With [UnidentifiedFile] as default class, a file object for which
    every class answers [False] ends its turn with [UnidentifiedFile] as its
    parser; it takes the description 'Unidentified file' if it had none, and
    keeps the description it had otherwise. *)
Theorem unidentified_file_outcome D fo st o' :
  default D = Some UnidentifiedFile ->
  fo < length (objects st) ->
  declined_by (parsers D) (deref fo st) = Some o' ->
  is_finished (process D fo st) = true
  /\ description (deref fo (state_of (process D fo st))) =
       (if truthy (description o') then description o'
        else DESCRIPTION UnidentifiedFile)
  /\ parser (deref fo (state_of (process D fo st))) =
       Some (class_name UnidentifiedFile)
  /\ file_name (deref fo (state_of (process D fo st))) = file_name o'.
Proof.
  intros Hd Hlt Hdecl.
  destruct (loop_declined D fo (parsers D) st o' Hlt Hdecl) as (st1 & Hloop & Ho & Hl).
  unfold process, _identify_file. rewrite Hloop, Hd. cbn [state_of is_finished].
  split; [done|].
  set (st2 := (attempt D UnidentifiedFile fo st1).1).
  assert (Hst2 : deref fo st2 = deref fo (claim UnidentifiedFile fo st1)).
  { subst st2. unfold attempt, construct_and_run. simpl.
    by destruct (greedy D). }
  assert (Hout : forall (A : Type) (f : FileObject -> A),
            (forall o, f (set_outputted_file true o) = f o) ->
            f (deref fo (output fo (log (OutputCalled fo) st2))) = f (deref fo st2)).
  { intros A f Hf.
    destruct (output_deref fo fo (log (OutputCalled fo) st2)) as [->| ->];
      [done|by rewrite Hf]. }
  rewrite (Hout _ description), (Hout _ parser), (Hout _ file_name) by done.
  rewrite Hst2. split_and!.
  - rewrite claim_description by lia. by rewrite Ho.
  - apply claim_parser. lia.
  - by rewrite claim_file_name, Ho.
Qed.

(** ** A class without [DESCRIPTION] *)

Lemma attempt_without_description D p fo st :
  truthy (DESCRIPTION p) = false ->
  attempt D p fo st =
    (debug (ParserFailed (class_name p))
       (log (Ended (class_name p) fo RaisesException) (claim p fo st)),
     if greedy D then Continue else Break).
Proof. intros H. unfold attempt, construct_and_run. by rewrite H. Qed.

Lemma loop_blocked_by_undescribed_class D pre p post idf fo st o1 muts :
  greedy D = false ->
  fo < length (objects st) ->
  declined_by pre (deref fo st) = Some o1 ->
  identify p o1 = Some (muts, true) ->
  truthy (DESCRIPTION p) = false ->
  let r := for_each D fo (identify_from D (pre ++ p :: post) idf fo st) in
  exists evs,
    trace (state_of r) = trace st ++ evs
    /\ is_finished r = true
    /\ ended evs = [(class_name p, fo, RaisesException)]
    /\ ran evs = []
    /\ (fun a => a.1) <$> asked evs =
         (fun q => (class_name q, fo)) <$> (pre ++ [p]).
Proof.
  intros Hgreedy Hlt Hdecl Hid Hdesc. revert st Hlt Hdecl.
  induction pre as [|q pre IH]; intros st Hlt Hdecl; cbn [app].
  - injection Hdecl as <-.
    rewrite (identify_from_yes _ _ _ _ _ _ _ Hid), for_each_yield.
    rewrite attempt_without_description, Hgreedy by done.
    cbn [state_of is_finished].
    destruct (claim_within p fo (announced p fo (answered p fo muts true st)))
      as (Ht & _).
    eexists [Asked (class_name p) fo true; Debug _;
             Ended (class_name p) fo RaisesException; Debug _].
    split_and!; [|done..].
    cbn [trace debug log]. rewrite Ht. simpl. by rewrite <- !app_assoc.
  - simpl in Hdecl. simpl.
    destruct (identify q (deref fo st)) as [[m []]|] eqn:Hq; try done.
    destruct (IH (answered q fo m false st)) as (evs & Ht & Hfin & He & Hr & Ha).
    + unfold answered. simpl. by rewrite length_alter.
    + unfold answered, deref. simpl. by rewrite list_lookup_total_alter_eq.
    + exists (Asked (class_name q) fo false :: evs). read_log.
      split_and!; [|done..|].
      * rewrite Ht. simpl. by rewrite <- app_assoc.
      * rewrite fmap_cons, Ha. done.
Qed.

(** X11.  A class without [DESCRIPTION] is never run: constructing it raises,
    which is logged as a failed parser.  Without [greedy] this ends the turn:
    when the first class to answer [True] has no [DESCRIPTION], no [run] is
    entered for the file object, the classes after it are not asked and the
    default class is not tried. *)
Theorem undescribed_class_blocks_the_turn D pre p post fo st o1 muts :
  greedy D = false ->
  parsers D = pre ++ p :: post ->
  fo < length (objects st) ->
  declined_by pre (deref fo st) = Some o1 ->
  identify p o1 = Some (muts, true) ->
  truthy (DESCRIPTION p) = false ->
  exists evs,
    trace (state_of (process D fo st)) = trace st ++ evs
    /\ is_finished (process D fo st) = true
    /\ ended evs = [(class_name p, fo, RaisesException)]
    /\ ran evs = []
    /\ (fun a => a.1) <$> asked evs =
         (fun q => (class_name q, fo)) <$> (pre ++ [p]).
Proof.
  intros Hgreedy Hparsers Hlt Hdecl Hid Hdesc.
  destruct (process_log D fo st) as (evs2 & Ht2 & Ha2 & Hr2 & He2 & Hfin).
  unfold _identify_file in *. rewrite Hparsers in *.
  destruct (loop_blocked_by_undescribed_class D pre p post false fo st o1 muts
              Hgreedy Hlt Hdecl Hid Hdesc) as (evs & Ht & Hf & He & Hr & Ha).
  exists (evs ++ evs2).
  rewrite ended_app, ran_app, asked_app, He2, Hr2, Ha2, !app_nil_r.
  split_and!; [|congruence|done..].
  by rewrite Ht2, Ht, app_assoc.
Qed.

(** ** More on [parser_history] *)

Lemma history_loop_cons fuel os x acc par :
  history_loop fuel os (x :: acc) par = (cons x) <$> history_loop fuel os acc par.
Proof.
  revert acc par. induction fuel as [|fuel IH]; intros acc [p|]; by simpl.
Qed.

(** X12.  The history of a file object that has a parent is the history of
    the parent followed by the file object's own parser; it takes one more
    parent link to compute.  The history of a file object without parent is
    its own parser alone. *)
Theorem parser_history_extends_parent os o fuel :
  (forall p, parent o = Some p ->
     parser_history (S fuel) os o =
       (fun l => l ++ [parser o]) <$> parser_history fuel os (os !!! p))
  /\ (parent o = None -> parser_history fuel os o = Some [parser o]).
Proof.
  split.
  - intros p Hp. unfold parser_history. rewrite Hp. simpl.
    rewrite history_loop_cons.
    by destruct (history_loop fuel os [parser (os !!! p)] (parent (os !!! p))).
  - intros Hp. unfold parser_history. rewrite Hp. by destruct fuel.
Qed.

Lemma history_loop_self fuel os acc fo :
  parent (os !!! fo) = Some fo -> history_loop fuel os acc (Some fo) = None.
Proof.
  intros Hself. revert acc. induction fuel as [|fuel IH]; intros acc; [done|].
  simpl. rewrite Hself. apply IH.
Qed.

(** X13.  [add_to_queue] applied to the dispatcher's current file object
    makes the file object its own parent; the loop of [parser_history] then
    never ends on it, however many links it is allowed to follow. *)
Theorem requeued_current_file_is_own_parent fo st :
  _current_file_object st = Some fo ->
  fo < length (objects st) ->
  parent (deref fo (add_to_queue fo st)) = Some fo
  /\ (forall fuel,
        parser_history fuel (objects (add_to_queue fo st))
          (deref fo (add_to_queue fo st)) = None).
Proof.
  intros Hcur Hlt.
  assert (Hself : parent (deref fo (add_to_queue fo st)) = Some fo).
  { unfold deref. rewrite add_to_queue_objects, Hcur.
    by rewrite list_lookup_total_alter_eq. }
  split; [done|]. intros fuel. unfold parser_history. rewrite Hself.
  by rewrite history_loop_self.
Qed.

Lemma well_parented_depth_bound st i o :
  well_parented st -> objects st !! i = Some o ->
  exists n, n <= i /\ depth_in (objects st) o n.
Proof.
  intros (_ & _ & Hparents). revert o.
  induction i as [i IH] using lt_wf_ind. intros o Hi.
  destruct (parent o) as [p|] eqn:Hp; [|exists 0; split; [lia|by constructor]].
  pose proof (Hparents i o p Hi Hp) as Hlt.
  assert (Hpo : is_Some (objects st !! p)).
  { apply lookup_lt_is_Some. apply lookup_lt_Some in Hi. lia. }
  destruct Hpo as [po Hpo].
  destruct (IH p Hlt po Hpo) as (n & Hn & Hdepth).
  exists (S n). split; [lia|]. eapply depth_child; [exact Hp|].
  by rewrite (list_lookup_total_correct _ _ _ Hpo).
Qed.

(** X14.  When [dispatch] starts from a store in which parents were created
    before their children, and the current and queued file objects are in
    the store, then whenever it stops [parser_history] is defined on every
    file object: following as many parent links as the object's position in
    the store is enough, and the history is no longer than that plus one. *)
Theorem parser_history_defined_after_dispatch D turns st i o :
  well_parented st ->
  objects (state_of (dispatch D turns st)) !! i = Some o ->
  exists l,
    parser_history i (objects (state_of (dispatch D turns st))) o = Some l
    /\ lineage (objects (state_of (dispatch D turns st))) o l
    /\ length l <= S i.
Proof.
  intros Hwf Hi.
  pose proof (well_parented_dispatch D turns st Hwf) as Hwf'.
  destruct (well_parented_depth_bound _ i o Hwf' Hi) as (n & Hn & Hdepth).
  destruct (history_loop_lineage _ o n Hdepth) as (l & Hlin & Hlen & Hloop).
  exists l. split_and!; [|done|lia].
  unfold parser_history. specialize (Hloop i [] Hn). simpl in Hloop.
  rewrite Hloop. by rewrite rev_involutive.
Qed.

(** ** When [dispatch] returns *)

Lemma output_fifo_buffer fo st : _fifo_buffer (output fo st) = _fifo_buffer st.
Proof.
  unfold output.
  by destruct (output_file _ && negb _); [destruct (bool_decide _)|].
Qed.

Lemma perform_without_extract acts e fo st :
  Forall (fun a => match a with Extract _ _ _ _ => False | _ => True end) acts ->
  _fifo_buffer (perform acts e fo st).1 = _fifo_buffer st.
Proof.
  revert st. induction acts as [|a acts IH]; intros st Hacts; [done|].
  apply Forall_cons in Hacts as [Ha Hacts]. simpl.
  destruct a as [m|data name desc out| |k v]; try done.
  - by rewrite IH.
  - by rewrite IH, output_fifo_buffer.
  - by rewrite IH.
Qed.

Lemma attempt_without_extract D p fo st :
  extracts_nothing p ->
  _fifo_buffer (attempt D p fo st).1 = _fifo_buffer st.
Proof.
  intros Hp.
  assert (Hrun : _fifo_buffer (construct_and_run p fo (claim p fo st)).1 =
                 _fifo_buffer st).
  { unfold construct_and_run. destruct (truthy (DESCRIPTION p)).
    - pose proof (Hp (deref fo (claim p fo st)) (knowledge_base (claim p fo st)))
        as Hacts.
      destruct (run p _ _) as [acts e]. rewrite perform_without_extract by done.
      unfold claim. simpl. by destruct (truthy _).
    - unfold claim. simpl. by destruct (truthy _). }
  unfold attempt.
  by destruct (construct_and_run p fo (claim p fo st)) as [st4 []].
Qed.

Lemma loop_without_extract D fo rest idf st :
  (forall p, p ∈ rest -> extracts_nothing p) ->
  (forall d, default D = Some d -> extracts_nothing d) ->
  _fifo_buffer (state_of (for_each D fo (identify_from D rest idf fo st))) =
    _fifo_buffer st.
Proof.
  intros Hrest Hdefault. revert rest idf st Hrest. apply (loop_ind D fo
    (fun rest _ st r =>
       (forall p, p ∈ rest -> extracts_nothing p) ->
       _fifo_buffer (state_of r) = _fifo_buffer st)); cbn [state_of].
  - done.
  - intros st _ _. unfold unidentified. by destruct (truthy _).
  - intros st d Hd _. rewrite attempt_without_extract by auto.
    unfold unidentified. by destruct (truthy _).
  - done.
  - intros p rest idf st muts r _ IH Hall. rewrite IH; [done|].
    intros q Hq. apply Hall. by right.
  - intros p rest idf st muts _ _ Hall.
    rewrite attempt_without_extract; [done|]. apply Hall. left.
  - intros p rest idf st muts r _ _ IH Hall. rewrite IH.
    + rewrite attempt_without_extract; [done|]. apply Hall. left.
    + intros q Hq. apply Hall. by right.
Qed.

Lemma dispatch_returns_without_extract D l :
  (forall p o, p ∈ parsers D -> identify p o <> None) ->
  (forall p, p ∈ parsers D -> extracts_nothing p) ->
  (forall d, default D = Some d -> extracts_nothing d) ->
  forall st, pending st = l ->
  is_finished (dispatch D (length l) st) = true.
Proof.
  intros Hid Hparsers Hdefault.
  induction l as [|a l IH]; intros st Hpending; simpl;
    rewrite pop_pending, Hpending; [done|].
  set (st0 := log (Popped a) (with_fifo_buffer (rev l) st)).
  destruct (process_finishes D a st0 Hid) as (-> & _).
  apply IH. unfold pending.
  rewrite output_fifo_buffer. simpl.
  fold (_identify_file D a st0).
  unfold _identify_file. rewrite loop_without_extract by done.
  simpl. apply rev_involutive.
Qed.

(** X23.  When no [identify] raises and no class queues a file, [dispatch]
    returns after as many turns of its loop as there are file objects in the
    queue, with the queue empty. *)
Theorem dispatch_returns_without_extraction D st :
  (forall p o, p ∈ parsers D -> identify p o <> None) ->
  (forall p, p ∈ parsers D -> extracts_nothing p) ->
  (forall d, default D = Some d -> extracts_nothing d) ->
  is_finished (dispatch D (length (pending st)) st) = true
  /\ pending (state_of (dispatch D (length (pending st)) st)) = [].
Proof.
  intros Hid Hparsers Hdefault.
  assert (Hfin : is_finished (dispatch D (length (pending st)) st) = true)
    by (by apply dispatch_returns_without_extract).
  split; [done|]. by apply dispatch_finished_empty.
Qed.

End Further.

(** * The lazily computed attributes *)

Section AttributeProperties.
Context {PE Resource : Type} (h : Helpers PE Resource).
Implicit Types (a : Attributes PE Resource) (w : World) (self : FileObject).

(** X15.  A supplied, non-empty file name is the name of the new file object
    whenever [use_supplied_fname] is set or the data is not a PE, whatever
    [use_supplied_fname] says then.  In that case neither the md5 nor
    [obtain_original_filename] is consulted, and the construction
    succeeds. *)
Theorem init_prefers_supplied_name data pe_arg name def_stub desc out
    use_supplied_fname use_arch w :
  name <> EmptyString ->
  use_supplied_fname = true \/ (pe_arg = None /\ obtain_pe h data = None) ->
  exists o a w',
    FileObject___init__ h data pe_arg (Some name) def_stub desc out
      use_supplied_fname use_arch w = (Some (o, a), w')
    /\ file_name o = name
    /\ _md5 a = None
    /\ helper_calls w' =
         helper_calls w ++ match pe_arg with Some _ => [] | None => [ObtainPe] end.
Proof.
  intros Hname Huse. unfold FileObject___init__.
  apply String.eqb_neq in Hname.
  set (pe1 := match pe_arg with
              | Some p => (Some p, w)
              | None => (obtain_pe h data, called ObtainPe w)
              end).
  assert (Hsup : use_supplied_fname || negb (bool_decide (is_Some pe1.1)) = true).
  { destruct Huse as [->|[-> Hnone]]; [done|]. subst pe1. simpl.
    rewrite Hnone. by rewrite orb_true_r. }
  assert (Hcalls : helper_calls pe1.2 =
                   helper_calls w ++ match pe_arg with Some _ => [] | None => [ObtainPe] end).
  { subst pe1. destruct pe_arg; simpl; [by rewrite app_nil_r|done]. }
  destruct pe1 as [p1 w1]. simpl in *. rewrite Hsup, Hname. simpl.
  unfold FileObject_init. rewrite Hname. by eexists _, _, _.
Qed.

(** X16.  When no name is supplied, or the file is a PE and
    [use_supplied_fname] is off, the name comes from
    [obtain_original_filename], keyed by [def_stub] or, without one, by the
    md5 of the data in hex, which is then cached in [_md5].  The
    construction fails exactly when that name is empty. *)
Theorem init_derives_name data pe_arg supplied def_stub desc out
    use_supplied_fname use_arch w :
  let pe1 := match pe_arg with Some p => Some p | None => obtain_pe h data end in
  let stub := if truthy def_stub then or_empty def_stub
              else encode_hex h (hashlib_md5 h data) in
  let name := obtain_original_filename h stub pe1 use_arch in
  let r := FileObject___init__ h data pe_arg supplied def_stub desc out
             use_supplied_fname use_arch w in
  truthy supplied = false \/ (use_supplied_fname = false /\ is_Some pe1) ->
  (name = EmptyString -> r.1 = None)
  /\ (name <> EmptyString ->
      exists o a,
        r.1 = Some (o, a)
        /\ file_name o = name
        /\ pe a = pe1
        /\ _md5 a = (if truthy def_stub then None else Some (hashlib_md5 h data)))
  /\ ObtainOriginalFilename stub ∈ helper_calls r.2.
Proof.
  intros pe1 stub name r Hcase. subst r. unfold FileObject___init__.
  set (pw := match pe_arg with
             | Some p => (Some p, w)
             | None => (obtain_pe h data, called ObtainPe w)
             end).
  assert (Hpe : pw.1 = pe1) by (subst pw pe1; by destruct pe_arg).
  destruct pw as [p1 w1]. simpl in Hpe. subst p1.
  assert (Hsup : truthy supplied
                 && (use_supplied_fname || negb (bool_decide (is_Some pe1))) = false).
  { destruct Hcase as [->|[-> Hsome]]; [done|].
    rewrite (bool_decide_eq_true_2 _ Hsome). simpl. apply andb_false_r. }
  rewrite Hsup. subst name stub. unfold FileObject_init.
  destruct (truthy def_stub).
  - destruct (String.eqb_spec
                (obtain_original_filename h (or_empty def_stub) pe1 use_arch)
                EmptyString) as [Heq|Hne]; simpl.
    + split_and!; [done|done|]. apply elem_of_app. right. left.
    + split_and!; [done| |].
      * intros _. by eexists _, _.
      * apply elem_of_app. right. left.
  - destruct (String.eqb_spec
                (obtain_original_filename h (encode_hex h (hashlib_md5 h data))
                   pe1 use_arch)
                EmptyString) as [Heq|Hne]; simpl.
    + split_and!; [done|done|]. apply elem_of_app. right. left.
    + split_and!; [done| |].
      * intros _. by eexists _, _.
      * apply elem_of_app. right. left.
Qed.

(** X17.  A file object that was constructed has a non-empty file name, no
    parent, no parser, is not outputted, carries the data, description and
    output flag it was given, and has nothing cached for [file_path] and
    [resources] and no stream. *)
Theorem init_gives_fresh_file_object data pe_arg supplied def_stub desc out
    use_supplied_fname use_arch w o a :
  (FileObject___init__ h data pe_arg supplied def_stub desc out
     use_supplied_fname use_arch w).1 = Some (o, a) ->
  file_name o <> EmptyString
  /\ file_data o = data /\ description o = desc /\ output_file o = out
  /\ _outputted_file o = false /\ parent o = None /\ parser o = None
  /\ _file_path a = None /\ _resources a = None /\ _open_file a = None.
Proof.
  unfold FileObject___init__.
  destruct (match pe_arg with
            | Some p => (Some p, w)
            | None => (obtain_pe h data, called ObtainPe w)
            end) as [pe1 w1].
  destruct (if truthy supplied && _ then _ else _) as [[name cache] w2].
  unfold FileObject_init.
  destruct (String.eqb_spec name EmptyString) as [Heq|Hne]; simpl; [done|].
  intros [= <- <-]. by split_and!.
Qed.

(** ** [md5] *)

(** X18.  [md5] is computed once: after an access that gave a non-empty
    digest, every access gives that digest again without a call of
    [hashlib], also when the data of the file object has changed since.  On
    a file object without cached digest, the access computes the digest of
    the data. *)
Theorem md5_is_computed_once self a w :
  (md5 h self a w).1.1 <> [] ->
  (forall self',
     md5 h self' (md5 h self a w).1.2 (md5 h self a w).2 = md5 h self a w)
  /\ (nonempty (_md5 a) = false ->
      (md5 h self a w).1.1 = hashlib_md5 h (file_data self)
      /\ helper_calls (md5 h self a w).2 = helper_calls w ++ [Md5Digest]).
Proof.
  unfold md5. destruct (nonempty (_md5 a)) eqn:Hcached; simpl.
  - intros _. split; [|done]. intros self'. by rewrite Hcached.
  - intros Hdigest. split; [|done]. intros self'.
    destruct (hashlib_md5 h (file_data self)) as [|b d]; [done|]. done.
Qed.

(** ** [file_path] *)

(** X19.  On a file object without a path, [file_path] writes the data to the
    file named after the file object in the reporter's temporary directory
    and gives that path; once a non-empty path is cached, every access gives
    it again and writes nothing, also when the name or the data of the file
    object has changed since. *)
Theorem file_path_materialises_once self a w :
  truthy (_file_path a) = false ->
  let path := os_path_join h (managed_tempdir h) (file_name self) in
  (file_path h self a w).1.1 = path
  /\ files (file_path h self a w).2 !! path = Some (file_data self)
  /\ (path <> EmptyString ->
      forall self',
        file_path h self' (file_path h self a w).1.2 (file_path h self a w).2 =
          file_path h self a w).
Proof.
  intros Hnone path. unfold file_path. rewrite Hnone. simpl.
  split_and!; [done|by rewrite lookup_insert_eq|].
  intros Hpath self'. apply String.eqb_neq in Hpath. fold path.
  by rewrite Hpath.
Qed.

(** X20.  After the setter was given a non-empty path, as [Dispatcher.run]
    does with the reporter's file name, [file_path] gives that path and
    writes no file.  After it was given [None] or the empty string, the next
    access writes the file in the temporary directory as if no path had been
    set. *)
Theorem file_path_setter_decides_writing self a w value :
  (truthy value = true ->
   file_path h self (file_path_setter value a) w =
     (or_empty value, file_path_setter value a, w))
  /\ (truthy value = false ->
      let path := os_path_join h (managed_tempdir h) (file_name self) in
      file_path h self (file_path_setter value a) w =
        (path, set__file_path (Some path) a,
         written path (file_data self) (called ManagedTempdir w))).
Proof.
  unfold file_path, file_path_setter. simpl.
  split; intros Hvalue; by rewrite Hvalue.
Qed.

(** ** [resources] *)

(** X21.  [resources] of a file object without PE gives the cache as it is,
    [None] on a new file object, and calls nothing.  With a PE that has
    resources, they are listed once and kept.  With a PE that has none, the
    empty list counts as not yet computed: every access lists the resources
    again. *)
Theorem resources_are_listed_while_empty a w :
  (pe a = None -> resources h a w = (_resources a, a, w))
  /\ (forall p, pe a = Some p -> nonempty (_resources a) = false ->
        iter_rsrc h p <> [] ->
        (resources h a w).1.1 = Some (iter_rsrc h p)
        /\ helper_calls (resources h a w).2 = helper_calls w ++ [IterRsrc]
        /\ resources h (resources h a w).1.2 (resources h a w).2 =
             resources h a w)
  /\ (forall p, pe a = Some p -> nonempty (_resources a) = false ->
        iter_rsrc h p = [] ->
        (resources h a w).1.1 = Some []
        /\ helper_calls (resources h (resources h a w).1.2 (resources h a w).2).2 =
             helper_calls w ++ [IterRsrc; IterRsrc]).
Proof.
  unfold resources. split_and!.
  - by intros ->.
  - intros p Hpe Hres Hfound. rewrite Hpe, Hres. simpl. rewrite Hpe.
    by destruct (iter_rsrc h p) as [|x l].
  - intros p Hpe Hres Hfound. rewrite Hpe, Hres. simpl.
    rewrite Hpe, Hfound. simpl. by rewrite <- app_assoc.
Qed.

(** ** The context manager *)

(** X22.  [__enter__] opens a new stream over the data of the file object and
    [__exit__] closes it, leaving the other streams as they are.  The file
    object remembers one stream only: when it is entered a second time before
    it is left, both [__exit__] close the second stream, and the first stream
    stays open. *)
Theorem exit_closes_the_last_stream_entered self a w :
  let e1 := __enter__ self a w in
  let e2 := __enter__ self e1.1.2 e1.2 in
  streams e1.2 !! e1.1.1 = Some {| buffer := file_data self; closed := false |}
  /\ (exists w2,
        __exit__ e1.1.2 e1.2 = Some w2
        /\ streams w2 = streams w ++ [{| buffer := file_data self; closed := true |}])
  /\ (exists w3 w4,
        __exit__ e2.1.2 e2.2 = Some w3
        /\ __exit__ e2.1.2 w3 = Some w4
        /\ streams w4 =
             streams w ++ [{| buffer := file_data self; closed := false |};
                           {| buffer := file_data self; closed := true |}]).
Proof.
  unfold __enter__, __exit__. simpl. split_and!.
  - by rewrite lookup_app_r, Nat.sub_diag.
  - eexists. split; [done|]. simpl.
    rewrite alter_app_r_alt, Nat.sub_diag by done. done.
  - eexists _, _. split_and!; [done..|]. simpl.
    rewrite length_app. simpl.
    rewrite (alter_app_r_alt _ (streams w ++ [_])) by (rewrite length_app; simpl; lia).
    rewrite length_app. simpl.
    replace (length (streams w) + 1 - (length (streams w) + 1)) with 0 by lia.
    simpl.
    rewrite (alter_app_r_alt _ (streams w ++ [_])) by (rewrite length_app; simpl; lia).
    rewrite length_app. simpl.
    replace (length (streams w) + 1 - (length (streams w) + 1)) with 0 by lia.
    simpl. by rewrite <- app_assoc.
Qed.

End AttributeProperties.

(** * The statements on concrete runs *)

Section Checks.
#[local] Existing Instance recording_reporter.

(** ** [_identify_file] and the default class *)

(** Nobody identifies [described_object], which has a description; the
    default class is yielded all the same. *)
Lemma default_yielded_for_described_file :
  declined_by (parsers default_only_dispatcher) (deref 0 described_state) =
    Some described_object
  /\ yielded (_identify_file default_only_dispatcher 0 described_state) =
       [UnidentifiedFile]
  /\ truthy (description (deref 0 described_state)) = true
  /\ ~ (UnidentifiedFile ∈
          yielded (_identify_file default_only_dispatcher 0 described_state)
        <-> truthy (description (deref 0 described_state)) = false).
Proof.
  split_and!; [done..|].
  intros [Hyield _].
  assert (Hfalse : truthy (description (deref 0 described_state)) = false).
  { apply Hyield. vm_compute. left. }
  vm_compute in Hfalse. discriminate Hfalse.
Qed.

Lemma identify_file_yields_default_witness :
  0 < length (objects described_state)
  /\ declined_by (parsers default_only_dispatcher)
       (deref 0 described_state) = Some described_object
  /\ (yielded (_identify_file default_only_dispatcher 0
                described_state) =
        match default default_only_dispatcher with Some d => [d] | None => [] end
      /\ deref 0 (exhausted (_identify_file default_only_dispatcher 0
                               described_state)) =
           described_object
      /\ trace (exhausted (_identify_file default_only_dispatcher 0
                             described_state)) =
           trace described_state
           ++ ((fun p => Asked (class_name p) 0 false) <$>
                 parsers default_only_dispatcher)
           ++ (if truthy (description described_object) then []
               else [Debug (NotIdentified (file_name described_object))])).
Proof.
  assert (H1 : 0 < length (objects described_state))
    by (simpl; lia).
  assert (H2 : declined_by (parsers default_only_dispatcher)
                 (deref 0 described_state) =
               Some described_object) by reflexivity.
  exact (conj H1 (conj H2
    (identify_file_yields_default default_only_dispatcher 0
       described_state described_object H1 H2))).
Defined.

(** ** Without [greedy] *)

(** [Picky] raises [UnableToParse], so [Implant] is run on the same file:
    two classes are run although [greedy] is off. *)
Lemma nongreedy_runs_two_classes :
  greedy first_match_dispatcher = false
  /\ ran (trace (state_of (dispatch first_match_dispatcher 1 seed_state))) =
       [("Picky"%string, 0); ("Implant"%string, 0)]
  /\ ~ (length (ran (trace (state_of (dispatch first_match_dispatcher 1 seed_state)))) <= 1).
Proof. split_and!; [done|done|]. vm_compute. lia. Qed.

Lemma nongreedy_stops_at_first_claim_witness :
  greedy first_match_dispatcher = false
  /\ exists evs,
       trace (state_of (process first_match_dispatcher 0 seed_state)) =
         trace seed_state ++ evs
       /\ misidentified_but_last 0 (ended evs)
       /\ ran evs `sublist_of` tried evs.
Proof.
  exact (conj eq_refl
           (nongreedy_stops_at_first_claim first_match_dispatcher eq_refl 0 seed_state)).
Defined.

(** ** [parser_history] *)

(** The seed, which has no parser and is at depth 0, has a history of one
    entry. *)
Lemma seed_history_has_one_entry :
  depth_in [seed_object] seed_object 0
  /\ parser seed_object = None
  /\ parser_history 1 [seed_object] seed_object = Some [None]
  /\ ~ (exists l, parser_history 1 [seed_object] seed_object = Some l
                  /\ length l = 0).
Proof.
  split_and!; [by constructor|done|done|].
  intros (l & Hl & Hlen). vm_compute in Hl. injection Hl as <-. discriminate Hlen.
Qed.

Lemma parser_history_depth_witness :
  depth_in [dropped_object; loaded_object] loaded_object 1
  /\ exists l,
       lineage [dropped_object; loaded_object] loaded_object l
       /\ length l = 2
       /\ forall fuel, 1 <= fuel ->
            parser_history fuel [dropped_object; loaded_object] loaded_object = Some l.
Proof.
  assert (H : depth_in [dropped_object; loaded_object] loaded_object 1).
  { apply (depth_child _ loaded_object 0 0); [reflexivity|].
    apply depth_seed. reflexivity. }
  exact (conj H (parser_history_depth _ _ _ H)).
Defined.

(** ** The parent given by [add_to_queue] *)

(** After [dispatch] has returned, the current file object is still the seed,
    not the seed's parent, and a file object queued then gets the seed as
    parent. *)
Lemma current_file_object_not_reset :
  is_finished (dispatch default_only_dispatcher 1 seeded) = true
  /\ parent (deref 0 after_first_dispatch) = None
  /\ _current_file_object after_first_dispatch = Some 0
  /\ _current_file_object after_first_dispatch <> parent (deref 0 after_first_dispatch)
  /\ parent (deref 1 queued_after_dispatch) = Some 0
  /\ parent (deref 1 queued_after_dispatch) <> None.
Proof. split_and!; by vm_compute. Qed.

(** ** Failures *)



(** ** [UnableToParse] *)


(** The seed goes through [Picky] and [Implant] in one turn: it is popped
    once and never queued again, and keeps the description [Picky] lent it. *)
Example misidentified_seed_run :
  let st := state_of (dispatch first_match_dispatcher 1 seed_state) in
  popped (trace st) = [0]
  /\ queued (trace st) = []
  /\ tried (trace st) = [("Picky"%string, 0); ("Implant"%string, 0)]
  /\ description (deref 0 st) = Some "Packed sample"%string
  /\ parser (deref 0 st) = Some "Implant"%string.
Proof. split_and!; by vm_compute. Qed.

(** ** [output()] *)

(** The reporter already has the name: two calls of [output()] make no call
    of [output_file] at all. *)
Lemma output_twice_on_known_name :
  output_file (deref 0 known_payload_state) = true
  /\ _outputted_file (deref 0 known_payload_state) = false
  /\ sink_calls (trace (output 0 (output 0 known_payload_state))) = []
  /\ length (sink_calls (trace (output 0 (output 0 known_payload_state)))) <> 1.
Proof. split_and!; by vm_compute. Qed.

(** Whatever the reporter does with the names: one that keeps none is still
    called once only, [_outputted_file] stopping the second call. *)
Example output_twice_forgetful_reporter :
  sink_calls (trace (@output forgetful_reporter 0
                       (@output forgetful_reporter 0 fresh_payload_state))) =
    [([], "payload.bin"%string, EmptyString)]
  /\ outputfiles (@output forgetful_reporter 0 fresh_payload_state) = [].
Proof. split; by vm_compute. Qed.

Lemma output_twice_emits_once_witness :
  0 < length (objects fresh_payload_state)
  /\ output_file (deref 0 fresh_payload_state) = true
  /\ _outputted_file (deref 0 fresh_payload_state) = false
  /\ (file_name (deref 0 fresh_payload_state) ∉ outputfiles fresh_payload_state)
  /\ trace (output 0 (output 0 fresh_payload_state)) =
       trace fresh_payload_state ++
         [OutputFile (file_data (deref 0 fresh_payload_state))
                     (file_name (deref 0 fresh_payload_state))
                     (or_empty (description (deref 0 fresh_payload_state)))]
  /\ output 0 (output 0 fresh_payload_state) = output 0 fresh_payload_state
  /\ _outputted_file (deref 0 (output 0 fresh_payload_state)) = true.
Proof.
  assert (H1 : 0 < length (objects fresh_payload_state)) by (simpl; lia).
  assert (H2 : output_file (deref 0 fresh_payload_state) = true) by reflexivity.
  assert (H3 : _outputted_file (deref 0 fresh_payload_state) = false) by reflexivity.
  assert (H4 : file_name (deref 0 fresh_payload_state) ∉ outputfiles fresh_payload_state)
    by apply not_elem_of_nil.
  destruct (output_twice_emits_once 0 fresh_payload_state H1 H2 H3 H4)
    as (Ht & Hsame & Hflag & _).
  exact (conj H1 (conj H2 (conj H3 (conj H4 (conj Ht (conj Hsame Hflag)))))).
Defined.

Lemma output_skips_known_name_witness :
  file_name (deref 0 known_payload_state) ∈ outputfiles known_payload_state
  /\ output 0 known_payload_state = known_payload_state
  /\ sink_calls (trace (output 0 known_payload_state)) =
       sink_calls (trace known_payload_state).
Proof.
  assert (H : file_name (deref 0 known_payload_state) ∈ outputfiles known_payload_state)
    by (vm_compute; left).
  destruct (output_skips_known_name 0 known_payload_state H) as (Hsame & Hcalls & _).
  exact (conj H (conj Hsame Hcalls)).
Defined.

(** ** With [greedy] *)


(** All three classes that answer [True] are run on the seed, in the order of
    [parsers], although the first raises [UnableToParse] and the second
    fails. *)
Example greedy_seed_run :
  let st := state_of (dispatch greedy_dispatcher 1 seed_state) in
  ran (trace st) =
    [("Picky"%string, 0); ("Crasher"%string, 0); ("Implant"%string, 0)]
  /\ ended (trace st) =
       [("Picky"%string, 0, RaisesUnableToParse);
        ("Crasher"%string, 0, RaisesException);
        ("Implant"%string, 0, Returns)].
Proof. split; by vm_compute. Qed.

(** ** A whole run *)

(** [Loader] claims the seed, leaves a key and extracts a payload; the
    payload is processed after the seed, falls to the default class, takes
    its description and is output once, with the seed as its parent. *)
Example loader_run :
  let r := Dispatcher_run loader_dispatcher [] "sample.bin" 5 Dispatcher_init in
  is_finished r = true
  /\ popped (trace (state_of r)) = [0; 1]
  /\ ran (trace (state_of r)) =
       [("Loader"%string, 0); ("UnidentifiedFile"%string, 1)]
  /\ sink_calls (trace (state_of r)) =
       [([], "payload.bin"%string, "Unidentified file"%string)]
  /\ description (deref 0 (state_of r)) = Some "Loader"%string
  /\ parent (deref 1 (state_of r)) = Some 0
  /\ knowledge_base (state_of r) !! "xorkey"%string = Some "0x41"%string
  /\ parser_history 1 (objects (state_of r)) (deref 1 (state_of r)) =
       Some [Some "Loader"%string; Some "UnidentifiedFile"%string].
Proof. split_and!; by vm_compute. Qed.

End Checks.

(** * More statements on concrete runs *)

Section MoreChecks.
#[local] Existing Instance recording_reporter.


Lemma dispatch_marks_only_wanted_witness :
  outputted_wanted seed_state
  /\ outputted_wanted (state_of (dispatch loader_dispatcher 3 seed_state)).
Proof.
  assert (H : outputted_wanted seed_state).
  { intros [|r] o Hr Hout; simpl in Hr; [|discriminate Hr].
    injection Hr as <-. discriminate Hout. }
  exact (conj H (dispatch_marks_only_wanted loader_dispatcher 3 seed_state H)).
Defined.

Lemma dispatch_outputs_each_name_once_witness :
  records_names
  /\ exists evs,
       trace (state_of (dispatch loader_dispatcher 3 seed_state)) =
         trace seed_state ++ evs
       /\ NoDup (sink_names evs)
       /\ (forall n, n ∈ sink_names evs -> n ∉ outputfiles seed_state).
Proof.
  assert (H : records_names).
  { intros names data filename desc. split; [left|]. intros n Hn. by right. }
  exact (conj H (dispatch_outputs_each_name_once loader_dispatcher 3 seed_state H)).
Defined.


Lemma nongreedy_asks_no_further_witness :
  greedy first_match_dispatcher = false
  /\ exists evs,
       trace (state_of (process first_match_dispatcher 0 seed_state)) =
         trace seed_state ++ evs
       /\ (forall c e,
             last (ended evs) = Some (c, 0, e) -> e <> RaisesUnableToParse ->
             matched evs <> [] ->
             last (asked evs) = Some (c, 0, true)).
Proof.
  exact (conj eq_refl
           (nongreedy_asks_no_further first_match_dispatcher 0 seed_state eq_refl)).
Defined.

Lemma default_identify_is_never_called_witness :
  default default_only_dispatcher = Some UnidentifiedFile
  /\ dispatch (with_default (Some (with_identify (fun _ => None) UnidentifiedFile))
                default_only_dispatcher) 1 seeded =
     dispatch default_only_dispatcher 1 seeded.
Proof.
  exact (conj eq_refl
           (default_identify_is_never_called default_only_dispatcher
              UnidentifiedFile (fun _ => None) 1 seeded eq_refl)).
Defined.

Lemma process_parser_is_last_tried_witness :
  0 < length (objects seed_state)
  /\ exists evs,
       trace (state_of (process first_match_dispatcher 0 seed_state)) =
         trace seed_state ++ evs
       /\ parser (deref 0 (state_of (process first_match_dispatcher 0 seed_state))) =
            match last (tried evs) with
            | Some (c, _) => Some c
            | None => parser (deref 0 seed_state)
            end.
Proof.
  assert (H : 0 < length (objects seed_state)) by (simpl; lia).
  exact (conj H (process_parser_is_last_tried first_match_dispatcher 0 seed_state H)).
Defined.

Lemma unidentified_file_outcome_witness :
  default default_only_dispatcher = Some UnidentifiedFile
  /\ 0 < length (objects seed_state)
  /\ declined_by (parsers default_only_dispatcher) (deref 0 seed_state) =
       Some seed_object
  /\ description (deref 0 (state_of (process default_only_dispatcher 0 seed_state))) =
       (if truthy (description seed_object) then description seed_object
        else DESCRIPTION UnidentifiedFile).
Proof.
  assert (H : 0 < length (objects seed_state)) by (simpl; lia).
  exact (conj eq_refl (conj H (conj eq_refl
    (proj1 (proj2 (unidentified_file_outcome default_only_dispatcher 0 seed_state
                     seed_object eq_refl H eq_refl)))))).
Defined.

Lemma undescribed_class_blocks_the_turn_witness :
  greedy unlabelled_dispatcher = false
  /\ parsers unlabelled_dispatcher = [Decliner] ++ Unlabelled :: [Implant]
  /\ 0 < length (objects seed_state)
  /\ declined_by [Decliner] (deref 0 seed_state) = Some seed_object
  /\ identify Unlabelled seed_object = Some ([], true)
  /\ truthy (DESCRIPTION Unlabelled) = false
  /\ exists evs,
       trace (state_of (process unlabelled_dispatcher 0 seed_state)) =
         trace seed_state ++ evs
       /\ is_finished (process unlabelled_dispatcher 0 seed_state) = true
       /\ ended evs = [(class_name Unlabelled, 0, RaisesException)]
       /\ ran evs = []
       /\ (fun a => a.1) <$> asked evs =
            (fun q => (class_name q, 0)) <$> ([Decliner] ++ [Unlabelled]).
Proof.
  assert (H : 0 < length (objects seed_state)) by (simpl; lia).
  exact (conj eq_refl (conj eq_refl (conj H (conj eq_refl (conj eq_refl (conj eq_refl
    (undescribed_class_blocks_the_turn unlabelled_dispatcher [Decliner] Unlabelled
       [Implant] 0 seed_state seed_object [] eq_refl eq_refl H eq_refl eq_refl
       eq_refl))))))).
Defined.

Lemma requeued_current_file_is_own_parent_witness :
  _current_file_object after_first_dispatch = Some 0
  /\ 0 < length (objects after_first_dispatch)
  /\ parent (deref 0 (add_to_queue 0 after_first_dispatch)) = Some 0
  /\ (forall fuel,
        parser_history fuel (objects (add_to_queue 0 after_first_dispatch))
          (deref 0 (add_to_queue 0 after_first_dispatch)) = None).
Proof.
  assert (H1 : _current_file_object after_first_dispatch = Some 0) by reflexivity.
  assert (H2 : 0 < length (objects after_first_dispatch)) by (vm_compute; lia).
  exact (conj H1 (conj H2
           (requeued_current_file_is_own_parent 0 after_first_dispatch H1 H2))).
Defined.

Lemma parser_history_defined_after_dispatch_witness :
  well_parented seeded
  /\ objects (state_of (dispatch loader_dispatcher 3 seeded)) !! 1 =
       Some (deref 1 (state_of (dispatch loader_dispatcher 3 seeded)))
  /\ exists l,
       parser_history 1 (objects (state_of (dispatch loader_dispatcher 3 seeded)))
         (deref 1 (state_of (dispatch loader_dispatcher 3 seeded))) = Some l
       /\ lineage (objects (state_of (dispatch loader_dispatcher 3 seeded)))
            (deref 1 (state_of (dispatch loader_dispatcher 3 seeded))) l
       /\ length l <= 2.
Proof.
  assert (H1 : well_parented seeded).
  { split_and!.
    - intros c Hc. discriminate Hc.
    - repeat constructor.
    - intros [|i] o p Hi Hp; simpl in Hi; [|discriminate Hi].
      injection Hi as <-. discriminate Hp. }
  assert (H2 : objects (state_of (dispatch loader_dispatcher 3 seeded)) !! 1 =
               Some (deref 1 (state_of (dispatch loader_dispatcher 3 seeded))))
    by (vm_compute; reflexivity).
  exact (conj H1 (conj H2
    (parser_history_defined_after_dispatch loader_dispatcher 3 seeded 1 _ H1 H2))).
Defined.

(** The payload the loader extracted: its history is the loader's class
    followed by the default class. *)
Example extracted_payload_history :
  parser_history 1 (objects (state_of (dispatch loader_dispatcher 3 seeded)))
    (deref 1 (state_of (dispatch loader_dispatcher 3 seeded))) =
    Some [Some "Loader"%string; Some "UnidentifiedFile"%string].
Proof. reflexivity. Qed.

Lemma dispatch_returns_without_extraction_witness :
  (forall p o, p ∈ parsers crashing_dispatcher -> identify p o <> None)
  /\ (forall p, p ∈ parsers crashing_dispatcher -> extracts_nothing p)
  /\ (forall d, default crashing_dispatcher = Some d -> extracts_nothing d)
  /\ is_finished (dispatch crashing_dispatcher (length (pending two_queued_state))
                    two_queued_state) = true
  /\ pending (state_of (dispatch crashing_dispatcher
                          (length (pending two_queued_state)) two_queued_state)) = [].
Proof.
  assert (H1 : forall p o, p ∈ parsers crashing_dispatcher -> identify p o <> None).
  { intros p o Hp. apply list_elem_of_singleton in Hp. subst p. discriminate. }
  assert (H2 : forall p, p ∈ parsers crashing_dispatcher -> extracts_nothing p).
  { intros p Hp. apply list_elem_of_singleton in Hp. subst p.
    intros o kb. constructor. }
  assert (H3 : forall d, default crashing_dispatcher = Some d -> extracts_nothing d).
  { intros d Hd. injection Hd as <-. intros o kb. constructor. }
  exact (conj H1 (conj H2 (conj H3
    (dispatch_returns_without_extraction crashing_dispatcher two_queued_state
       H1 H2 H3)))).
Defined.


Lemma parser_history_extends_parent_witness :
  parent loaded_object = Some 0
  /\ parser_history 1 [dropped_object; loaded_object] loaded_object =
       (fun l => l ++ [parser loaded_object]) <$>
         parser_history 0 [dropped_object; loaded_object]
           ([dropped_object; loaded_object] !!! 0).
Proof.
  exact (conj eq_refl
    (proj1 (parser_history_extends_parent [dropped_object; loaded_object]
              loaded_object 0) 0 eq_refl)).
Defined.

(** ** The attributes *)

Lemma init_prefers_supplied_name_witness :
  "dropper.exe"%string <> EmptyString
  /\ (false = true \/
      (@None (list string) = None /\ obtain_pe stub_helpers [] = None))
  /\ exists o a w',
       FileObject___init__ stub_helpers [] None (Some "dropper.exe"%string) None
         None true false false empty_world = (Some (o, a), w')
       /\ file_name o = "dropper.exe"%string
       /\ _md5 a = None
       /\ helper_calls w' = helper_calls empty_world ++ [ObtainPe].
Proof.
  assert (H1 : "dropper.exe"%string <> EmptyString) by discriminate.
  assert (H2 : false = true \/
               (@None (list string) = None /\ obtain_pe stub_helpers [] = None))
    by (right; split; reflexivity).
  exact (conj H1 (conj H2
    (init_prefers_supplied_name stub_helpers [] None "dropper.exe" None None
       true false false empty_world H1 H2))).
Defined.

Lemma init_derives_name_witness :
  (truthy (@None string) = false \/
   (false = false /\ is_Some (obtain_pe stub_helpers [])))
  /\ ObtainOriginalFilename "00" ∈
       helper_calls (FileObject___init__ stub_helpers [] None None None None
                       true false false empty_world).2.
Proof.
  assert (H : truthy (@None string) = false \/
              (false = false /\ is_Some (obtain_pe stub_helpers [])))
    by (left; reflexivity).
  exact (conj H (proj2 (proj2
    (init_derives_name stub_helpers [] None None None None true false false
       empty_world H)))).
Defined.

(** Without a supplied name and without [def_stub], the name is derived from
    the digest, which is then cached. *)
Example init_names_by_digest :
  (FileObject___init__ stub_helpers [] None None None None true false false
     empty_world).1 =
    Some ({| file_data := []; file_name := "00.bin"; description := None;
             output_file := true; _outputted_file := false;
             parent := None; parser := None |},
          {| pe := None; _md5 := Some [Byte.x00]; _file_path := None;
             _resources := None; _open_file := None |}).
Proof. reflexivity. Qed.

Lemma init_gives_fresh_file_object_witness :
  (FileObject___init__ stub_helpers [] None (Some "dropper.exe"%string) None None
     true false false empty_world).1 = Some (payload_like, new_attributes)
  /\ file_name payload_like <> EmptyString.
Proof.
  assert (H : (FileObject___init__ stub_helpers [] None (Some "dropper.exe"%string)
                 None None true false false empty_world).1 =
              Some (payload_like, new_attributes)) by reflexivity.
  exact (conj H (proj1
    (init_gives_fresh_file_object stub_helpers [] None (Some "dropper.exe"%string)
       None None true false false empty_world _ _ H))).
Defined.

Lemma md5_is_computed_once_witness :
  (md5 stub_helpers seed_object new_attributes empty_world).1.1 <> []
  /\ md5 stub_helpers payload_object
       (md5 stub_helpers seed_object new_attributes empty_world).1.2
       (md5 stub_helpers seed_object new_attributes empty_world).2 =
     md5 stub_helpers seed_object new_attributes empty_world.
Proof.
  assert (H : (md5 stub_helpers seed_object new_attributes empty_world).1.1 <> [])
    by discriminate.
  exact (conj H
    (proj1 (md5_is_computed_once stub_helpers seed_object new_attributes
              empty_world H) payload_object)).
Defined.

Lemma file_path_materialises_once_witness :
  truthy (_file_path new_attributes) = false
  /\ (file_path stub_helpers seed_object new_attributes empty_world).1.1 =
       os_path_join stub_helpers (managed_tempdir stub_helpers)
         (file_name seed_object)
  /\ files (file_path stub_helpers seed_object new_attributes empty_world).2
       !! os_path_join stub_helpers (managed_tempdir stub_helpers)
            (file_name seed_object) = Some (file_data seed_object).
Proof.
  destruct (file_path_materialises_once stub_helpers seed_object new_attributes
              empty_world eq_refl) as (Hpath & Hfile & _).
  exact (conj eq_refl (conj Hpath Hfile)).
Defined.

Lemma file_path_setter_decides_writing_witness :
  truthy (Some "/samples/sample.bin"%string) = true
  /\ file_path stub_helpers seed_object
       (file_path_setter (Some "/samples/sample.bin"%string) new_attributes)
       empty_world =
     ("/samples/sample.bin"%string,
      file_path_setter (Some "/samples/sample.bin"%string) new_attributes,
      empty_world).
Proof.
  exact (conj eq_refl
    (proj1 (file_path_setter_decides_writing stub_helpers seed_object
              new_attributes empty_world (Some "/samples/sample.bin"%string))
       eq_refl)).
Defined.

Lemma resources_are_listed_while_empty_witness :
  pe (mkAttributes (list string) string (Some []) None None None None) = Some []
  /\ helper_calls
       (resources stub_helpers
          (resources stub_helpers
             (mkAttributes (list string) string (Some []) None None None None)
             empty_world).1.2
          (resources stub_helpers
             (mkAttributes (list string) string (Some []) None None None None)
             empty_world).2).2 =
     helper_calls empty_world ++ [IterRsrc; IterRsrc].
Proof.
  exact (conj eq_refl
    (proj2 (proj2 (proj2 (resources_are_listed_while_empty stub_helpers
       (mkAttributes (list string) string (Some []) None None None None)
       empty_world)) [] eq_refl eq_refl eq_refl))).
Defined.

End MoreChecks.
